(** * SMASH: cubic-spline interpolation helper and ROOT output buffers

    A shallow embedding of [src/interpolation.cc] (class
    [InterpolateDataSpline]) and of the buffer declarations of
    [src/include/smash/rootoutput.h] (class [RootOutput]).

    A C++ [double] is an IEEE-754 binary64 value; it is embedded as Rocq's
    primitive [float], whose comparisons [<?] and [=?] are the C++ operators
    [<] and [==] (a NaN compares false with everything, [0 == -0] holds).
    The GNU Scientific Library is an external collaborator: it is taken as
    an interface ([GSL]) whose operations the embedded code calls. *)

From Stdlib Require Import String Ascii.
From Stdlib Require Import ZArith NArith List Bool Lia Floats.
From Stdlib Require Import Permutation Sorted.
Import ListNotations.

(* ================================================================== *)
(** * Part I: definitions *)
(* ================================================================== *)

(** ** Ordering keys for binary64 values *)

Module DoubleOrder.

(** A key that orders non-NaN values the way [SFcompare] does: the class
    (negative infinity, negative finite, zero, positive finite, positive
    infinity), then the exponent, then the mantissa. *)
Definition SFkey (f : spec_float) : Z * (Z * Z) :=
  match f with
  | S754_zero _ => (0, (0, 0))
  | S754_infinity s => (if s then -2 else 2, (0, 0))
  | S754_nan => (0, (0, 0))
  | S754_finite s m e =>
      if s then (-1, (- e, - Z.pos m)) else (1, (e, Z.pos m))
  end%Z.

Definition lex_lt (a b : Z * (Z * Z)) : Prop :=
  (fst a < fst b
   \/ (fst a = fst b
       /\ (fst (snd a) < fst (snd b)
           \/ (fst (snd a) = fst (snd b) /\ snd (snd a) < snd (snd b)))))%Z.

Definition SFis_nan (f : spec_float) : bool :=
  match f with S754_nan => true | _ => false end.

Definition key (d : float) : Z * (Z * Z) := SFkey (Prim2SF d).

End DoubleOrder.

(** ** [src/interpolation.cc] *)

Module Interpolation.

Definition double : Set := float.

(** [std::vector<T>] *)
Definition vector (T : Type) : Type := list T.

(** [v[i]] on a [std::vector<double>]. The source only indexes in range;
    out of range (undefined behaviour in C++) the embedding yields [0.0]. *)
Definition at_ (v : vector double) (i : nat) : double := nth i v 0%float.

(** [v.front()] and [v.back()] *)
Definition front (v : vector double) : double := at_ v 0.
Definition back (v : vector double) : double := at_ v (length v - 1).

(** *** Exceptions

    The text of a [std::runtime_error] is kept as the sequence of items
    streamed into it: literal text, or a [double] written with [<<]
    (its decimal rendering is not modelled). *)
Inductive piece : Set :=
| Text (s : string)
| Number (d : double).

Inductive exception : Set :=
| runtime_error (what : list piece).

(** The double-quote character (ASCII 34), escaped in the source text. *)
Definition dquote : string := String "034"%char EmptyString.

(** The three errors of the constructor, under the names the specification
    gives them. *)
Definition InvalidInput : exception :=
  runtime_error [Text "Need two vectors of equal length for interpolation."].

Definition InsufficientData : exception :=
  runtime_error
    [Text "Need at least 3 data points for cubic spline interpolation."].

Definition DuplicateAbscissa (v : double) : exception :=
  runtime_error
    [Text ("InterpolateDataSpline: Each x value must be unique. " ++ dquote)%string;
     Number v;
     Text (dquote ++ " was found twice.")%string].

(** *** The GSL interface

    Objects of the library are held by value. [gsl_spline_eval] takes the
    spline as [const] and the accelerator as a mutable pointer, so it
    returns the value together with the accelerator it leaves behind. *)
Inductive gsl_interp_type : Set :=
| gsl_interp_cspline.

Class GSL : Type := {
  gsl_interp_accel : Type;
  gsl_spline : Type;
  gsl_interp_accel_alloc : gsl_interp_accel;
  gsl_spline_alloc : gsl_interp_type -> nat -> gsl_spline;
  gsl_spline_init :
    gsl_spline -> vector double -> vector double -> nat -> gsl_spline;
  gsl_spline_eval :
    gsl_spline -> double -> gsl_interp_accel -> double * gsl_interp_accel
}.

(** *** Construction effects: exceptions and GSL allocations

    The state is the number of live GSL objects. *)
Definition heap : Set := nat.

Definition M (A : Type) : Type := heap -> (exception + A) * heap.

Definition ret {A : Type} (a : A) : M A := fun h => (inr a, h).

Definition throw {A : Type} (e : exception) : M A := fun h => (inl e, h).

Definition bind {A B : Type} (m : M A) (k : A -> M B) : M B :=
  fun h =>
    match m h with
    | (inl e, h') => (inl e, h')
    | (inr a, h') => k a h'
    end.

Definition gsl_alloc {A : Type} (a : A) : M A := fun h => (inr a, S h).

Notation "x <- m ;; k" := (bind m (fun x => k))
  (at level 61, m at next level, right associativity).

(** *** Sorting helpers *)

(** Modelled from the spec: [include/interpolation.h], which defines
    [generate_sort_permutation] and [apply_permutation], is not among the
    sources. The specification says: "stable-sort the (x,y) pairs by x
    ascending (pairs carried together via a permutation, not
    independently)". [insert_index] places index [i] in front of the first
    index whose value is not below [v[i]], so equal values keep the order
    of their indices when the indices are inserted from the last to the
    first. *)
Fixpoint insert_index (v : vector double) (compare : double -> double -> bool)
  (i : nat) (p : list nat) : list nat :=
  match p with
  | [] => [i]
  | j :: q =>
      if compare (at_ v j) (at_ v i)
      then j :: insert_index v compare i q
      else i :: p
  end.

(** Modelled from the spec: see [insert_index]. The indices [0 .. size-1],
    stable-sorted by the value they point to. *)
Definition generate_sort_permutation (v : vector double)
  (compare : double -> double -> bool) : list nat :=
  fold_right (insert_index v compare) [] (seq 0 (length v)).

(** Modelled from the spec: see [insert_index]. The vector read through the
    permutation. *)
Definition apply_permutation (v : vector double) (p : list nat)
  : vector double :=
  map (at_ v) p.

(** *** The class *)

Section WithGSL.

Context {G : GSL}.

Record InterpolateDataSpline : Type := {
  first_x_ : double;
  last_x_ : double;
  first_y_ : double;
  last_y_ : double;
  acc_ : gsl_interp_accel;
  spline_ : gsl_spline
}.

(** The loop of lines 21-31, started at index [i] with [steps] iterations
    left:
    [for (i = 0; i < sorted_x.size() - 1; i++)
       if (sorted_x[i] == sorted_x[i + 1]) throw ...] *)
Fixpoint unique_loop (sorted_x : vector double) (i steps : nat) : M unit :=
  match steps with
  | O => ret tt
  | S k =>
      if (at_ sorted_x i =? at_ sorted_x (i + 1))%float
      then throw (DuplicateAbscissa (at_ sorted_x i))
      else unique_loop sorted_x (S i) k
  end.

(** The comparison handed to the sort:
    [[&](double const& a, double const& b) { return a < b; }] *)
Definition less (a b : double) : bool := (a <? b)%float.

(** [InterpolateDataSpline::InterpolateDataSpline(x, y)] *)
Definition construct (x y : vector double) : M InterpolateDataSpline :=
  let N := length x in
  if negb (length y =? N)%nat then throw InvalidInput
  else if (N <? 3)%nat then throw InsufficientData
  else
    let p := generate_sort_permutation x less in
    let sorted_x := apply_permutation x p in
    let sorted_y := apply_permutation y p in
    _ <- unique_loop sorted_x 0 (length sorted_x - 1) ;;
    acc <- gsl_alloc gsl_interp_accel_alloc ;;
    spline <- gsl_alloc (gsl_spline_alloc gsl_interp_cspline N) ;;
    ret {| first_x_ := front sorted_x;
           last_x_ := back sorted_x;
           first_y_ := front sorted_y;
           last_y_ := back sorted_y;
           acc_ := acc;
           spline_ := gsl_spline_init spline sorted_x sorted_y N |}.

(** The object after [gsl_spline_eval] has written to [*acc_]. *)
Definition with_acc (it : InterpolateDataSpline) (a : gsl_interp_accel)
  : InterpolateDataSpline :=
  {| first_x_ := first_x_ it;
     last_x_ := last_x_ it;
     first_y_ := first_y_ it;
     last_y_ := last_y_ it;
     acc_ := a;
     spline_ := spline_ it |}.

(** The last statement of [operator()]:
    [return gsl_spline_eval(spline_, xi, acc_);] *)
Definition spline_branch (it : InterpolateDataSpline) (xi : double)
  : double * InterpolateDataSpline :=
  let '(v, a) := gsl_spline_eval (spline_ it) xi (acc_ it) in
  (v, with_acc it a).

(** [double InterpolateDataSpline::operator()(double xi) const]: the value
    returned and the object afterwards. *)
Definition evaluate (it : InterpolateDataSpline) (xi : double)
  : double * InterpolateDataSpline :=
  if (xi <? first_x_ it)%float then (first_y_ it, it)
  else if (last_x_ it <? xi)%float then (last_y_ it, it)
  else spline_branch it xi.

(** The object after a sequence of calls of [operator()]. *)
Definition evaluate_all (it : InterpolateDataSpline) (calls : list double)
  : InterpolateDataSpline :=
  fold_left (fun o xi => snd (evaluate o xi)) calls it.

(** The members other than the accelerator: the sample set the object
    stands for. *)
Definition samples (it : InterpolateDataSpline)
  : double * double * double * double * gsl_spline :=
  (first_x_ it, last_x_ it, first_y_ it, last_y_ it, spline_ it).

(** An interpolator built from [x] and [y], possibly used since. *)
Inductive constructed_from (x y : vector double)
  : InterpolateDataSpline -> Prop :=
| cf_new : forall h it h',
    construct x y h = (inr it, h') -> constructed_from x y it
| cf_used : forall it xi,
    constructed_from x y it -> constructed_from x y (snd (evaluate it xi)).

End WithGSL.

Arguments InterpolateDataSpline G : clear implicits.

(** *** Properties of the input *)

Definition no_nan (v : vector double) : Prop :=
  forall i, i < length v -> PrimFloat.is_nan (at_ v i) = false.

(** Index [i] holds a smallest (largest) value of [v]. *)
Definition is_min (v : vector double) (i : nat) : Prop :=
  i < length v /\ forall j, j < length v -> (at_ v j <? at_ v i)%float = false.

Definition is_max (v : vector double) (i : nat) : Prop :=
  i < length v /\ forall j, j < length v -> (at_ v i <? at_ v j)%float = false.

(** The order a stable ascending sort leaves two indices in: the earlier
    one points to a smaller value, or to a value that is not larger and
    came first in the input. *)
Definition stable_before (v : vector double) (i j : nat) : Prop :=
  (at_ v i <? at_ v j)%float = true
  \/ ((at_ v j <? at_ v i)%float = false /\ i < j).

(** The values never step down, resp. always step up, from left to right. *)
Definition ascending (l : vector double) : Prop :=
  StronglySorted (fun a b => (b <? a)%float = false) l.

Definition strictly_ascending (l : vector double) : Prop :=
  StronglySorted (fun a b => (a <? b)%float = true) l.

(** Pairs (x, y) compared by their abscissa. *)
Definition key_below (a b : double * double) : Prop :=
  (fst a <? fst b)%float = true.

Definition key_not_above (a b : double * double) : Prop :=
  (fst b <? fst a)%float = false.

(** Two neighbours of [v] compare equal with [==]. *)
Fixpoint adjacent_equal (v : vector double) : bool :=
  match v with
  | a :: (b :: _) as t => (a =? b)%float || adjacent_equal t
  | _ => false
  end.

(** Two neighbours of [v] are the same bit pattern ([Leibniz.eqb]
    distinguishes [0.0] from [-0.0], which [==] does not). *)
Fixpoint adjacent_bit_equal (v : vector double) : bool :=
  match v with
  | a :: (b :: _) as t => PrimFloat.Leibniz.eqb a b || adjacent_bit_equal t
  | _ => false
  end.

(** The first pair of neighbours that compare equal with [==]. *)
Fixpoint first_duplicate (v : vector double) : option double :=
  match v with
  | a :: (b :: _) as t =>
      if (a =? b)%float then Some a else first_duplicate t
  | _ => None
  end.

(** The contract of the library that C3 rests on, for a cubic spline of
    size [n] initialised with the nodes [xs], [ys]: evaluated at a node,
    with whatever accelerator, it returns the node's ordinate up to
    [close]. *)
Definition passes_through_nodes {G : GSL} (close : double -> double -> Prop)
  (xs ys : vector double) (n : nat) : Prop :=
  forall k a, k < n ->
    close
      (fst (gsl_spline_eval
              (gsl_spline_init (gsl_spline_alloc gsl_interp_cspline n)
                 xs ys n)
              (at_ xs k) a))
      (at_ ys k).

(** A tolerance used on the sample data: the two values differ by at most
    2^-30. *)
Definition within_tolerance (a b : double) : Prop :=
  (abs (a - b) <=? 0x1p-30)%float = true.

(** *** The duplicate loop with its index arithmetic written out

    [size_t] is taken 64 bits wide, so [sorted_x.size() - 1] wraps around
    on an empty vector; every read of [sorted_x[k]] is checked against the
    size, and the loop stops at the first read outside the vector (undefined
    behaviour in C++). [fuel] bounds the number of iterations. *)
Definition size_t_modulus : Z := 2 ^ 64.

Definition size_t_sub (a b : Z) : Z := ((a - b) mod size_t_modulus)%Z.

Inductive loop_result : Set :=
| Finished (r : exception + unit)
| OutOfRange (k : nat)
| OutOfFuel.

Fixpoint unique_loop_checked (sorted_x : vector double) (i fuel : nat)
  : loop_result :=
  match fuel with
  | O => OutOfFuel
  | S k =>
      if (Z.of_nat i <? size_t_sub (Z.of_nat (length sorted_x)) 1)%Z
      then
        match nth_error sorted_x i, nth_error sorted_x (i + 1) with
        | None, _ => OutOfRange i
        | Some _, None => OutOfRange (i + 1)
        | Some a, Some b =>
            if (a =? b)%float
            then Finished (inl (DuplicateAbscissa a))
            else unique_loop_checked sorted_x (S i) k
        end
      else Finished (inr tt)
  end.

(** *** An executable instance of the interface

    A stand-in for the library, used to run the embedding on concrete
    inputs: it interpolates linearly between neighbouring samples and its
    accelerator caches the last interval and counts hits and misses. *)
Module LinearGSL.

Record accel : Set := { cache : nat; hit_count : nat; miss_count : nat }.

Record spline : Set := { xa : list double; ya : list double; size : nat }.

(** The last interval [i <= size - 2] whose left end is not above [xi]. *)
Fixpoint find_interval (xs : list double) (xi : double) (i n : nat) : nat :=
  match n with
  | O => i
  | S k =>
      if (xi <? at_ xs (S i))%float then i else find_interval xs xi (S i) k
  end.

Definition eval (s : spline) (xi : double) (a : accel) : double * accel :=
  let i := find_interval (xa s) xi 0 (size s - 2) in
  let x_lo := at_ (xa s) i in
  let x_hi := at_ (xa s) (S i) in
  let y_lo := at_ (ya s) i in
  let y_hi := at_ (ya s) (S i) in
  ((y_lo + (xi - x_lo) * ((y_hi - y_lo) / (x_hi - x_lo)))%float,
   if (cache a =? i)%nat
   then {| cache := i; hit_count := S (hit_count a);
           miss_count := miss_count a |}
   else {| cache := i; hit_count := hit_count a;
           miss_count := S (miss_count a) |}).

#[export] Instance gsl : GSL := {
  gsl_interp_accel := accel;
  gsl_spline := spline;
  gsl_interp_accel_alloc := {| cache := 0; hit_count := 0; miss_count := 0 |};
  gsl_spline_alloc := fun _ n => {| xa := []; ya := []; size := n |};
  gsl_spline_init := fun _ xs ys n => {| xa := xs; ya := ys; size := n |};
  gsl_spline_eval := eval
}.

End LinearGSL.

(** *** Sample data

    Three samples given out of order, and the object [construct] builds
    from them with [LinearGSL]. *)
Definition sample_x : vector double := [3; 1; 2]%float.

Definition sample_y : vector double := [30; 10; 20]%float.

Definition sample_acc : LinearGSL.accel :=
  {| LinearGSL.cache := 0; LinearGSL.hit_count := 0;
     LinearGSL.miss_count := 0 |}.

Definition sample_spline : LinearGSL.spline :=
  {| LinearGSL.xa := [1; 2; 3]%float;
     LinearGSL.ya := [10; 20; 30]%float;
     LinearGSL.size := 3 |}.

Definition sample_it : InterpolateDataSpline LinearGSL.gsl :=
  @Build_InterpolateDataSpline LinearGSL.gsl
    1%float 3%float 10%float 30%float sample_acc sample_spline.

End Interpolation.

(** ** [src/include/smash/rootoutput.h] *)

Module RootOutput.

Definition double : Set := float.

(** [int] *)
Definition int : Set := Z.

(** [static const int max_buffer_size_ = 10000;] *)
Definition max_buffer_size_ : Z := 10000.

(** [std::array<T, n>]: exactly [n] elements, the size being part of the
    type. *)
Record array (T : Type) (n : Z) : Type := {
  elems : list T;
  elems_size : Z.of_nat (length elems) = n
}.

Arguments elems {T n} _.
Arguments elems_size {T n} _.

(** The buffer members of [RootOutput] (lines 198-204). *)
Record Buffers : Type := {
  p0 : array double max_buffer_size_;
  px : array double max_buffer_size_;
  py : array double max_buffer_size_;
  pz : array double max_buffer_size_;
  t : array double max_buffer_size_;
  x : array double max_buffer_size_;
  y : array double max_buffer_size_;
  z : array double max_buffer_size_;
  formation_time_ : array double max_buffer_size_;
  xsec_factor_ : array double max_buffer_size_;
  time_last_coll_ : array double max_buffer_size_;
  pdgcode : array int max_buffer_size_;
  charge : array int max_buffer_size_;
  coll_per_part_ : array int max_buffer_size_;
  proc_id_origin_ : array int max_buffer_size_;
  proc_type_origin_ : array int max_buffer_size_;
  pdg_mother1_ : array int max_buffer_size_;
  pdg_mother2_ : array int max_buffer_size_;
  npart : int;
  tcounter : int;
  ev : int;
  nin : int;
  nout : int;
  wgt : double;
  par_wgt : double;
  impact_b : double;
  empty_event_ : bool
}.

(** The per-field buffers, by name. *)
Inductive field : Set :=
| f_p0 | f_px | f_py | f_pz | f_t | f_x | f_y | f_z
| f_formation_time_ | f_xsec_factor_ | f_time_last_coll_
| f_pdgcode | f_charge | f_coll_per_part_
| f_proc_id_origin_ | f_proc_type_origin_ | f_pdg_mother1_ | f_pdg_mother2_.

(** The number of entries the buffer of a field holds. *)
Definition capacity (w : Buffers) (f : field) : Z :=
  match f with
  | f_p0 => Z.of_nat (length (elems (p0 w)))
  | f_px => Z.of_nat (length (elems (px w)))
  | f_py => Z.of_nat (length (elems (py w)))
  | f_pz => Z.of_nat (length (elems (pz w)))
  | f_t => Z.of_nat (length (elems (t w)))
  | f_x => Z.of_nat (length (elems (x w)))
  | f_y => Z.of_nat (length (elems (y w)))
  | f_z => Z.of_nat (length (elems (z w)))
  | f_formation_time_ => Z.of_nat (length (elems (formation_time_ w)))
  | f_xsec_factor_ => Z.of_nat (length (elems (xsec_factor_ w)))
  | f_time_last_coll_ => Z.of_nat (length (elems (time_last_coll_ w)))
  | f_pdgcode => Z.of_nat (length (elems (pdgcode w)))
  | f_charge => Z.of_nat (length (elems (charge w)))
  | f_coll_per_part_ => Z.of_nat (length (elems (coll_per_part_ w)))
  | f_proc_id_origin_ => Z.of_nat (length (elems (proc_id_origin_ w)))
  | f_proc_type_origin_ => Z.of_nat (length (elems (proc_type_origin_ w)))
  | f_pdg_mother1_ => Z.of_nat (length (elems (pdg_mother1_ w)))
  | f_pdg_mother2_ => Z.of_nat (length (elems (pdg_mother2_ w)))
  end.

End RootOutput.

(* ================================================================== *)
(** * Part II: theorems *)
(* ================================================================== *)

(** ** Order facts on binary64 values *)

Module DoubleOrderFacts.

Import DoubleOrder.

Lemma SFltb_key (a b : spec_float) :
  SFis_nan a = false -> SFis_nan b = false ->
  (SFltb a b = true <-> lex_lt (SFkey a) (SFkey b)).
Proof.
  unfold SFltb, lex_lt.
  destruct a as [sa|sa| |sa ma ea], b as [sb|sb| |sb mb eb];
    try discriminate; intros _ _;
    try (destruct sa); try (destruct sb); cbn;
    try (split; intro; first [discriminate | reflexivity | lia]);
    change (Pos.compare_cont Eq ma mb) with (Pos.compare ma mb);
    destruct (Z.compare_spec ea eb) as [He|He|He];
    destruct (Pos.compare_spec ma mb) as [Hm|Hm|Hm]; cbn;
    split; intro; first [discriminate | reflexivity | lia].
Qed.

Lemma SFltb_not_nan (a b : spec_float) :
  SFltb a b = true -> SFis_nan a = false /\ SFis_nan b = false.
Proof.
  unfold SFltb.
  destruct a as [sa|sa| |sa ma ea], b as [sb|sb| |sb mb eb];
    cbn; intro H; try discriminate; split; reflexivity.
Qed.

Lemma SFeqb_not_nan (a b : spec_float) :
  SFeqb a b = true -> SFis_nan a = false /\ SFis_nan b = false.
Proof.
  unfold SFeqb.
  destruct a as [sa|sa| |sa ma ea], b as [sb|sb| |sb mb eb];
    cbn; intro H; try discriminate; split; reflexivity.
Qed.

Lemma SFeqb_key (a b : spec_float) :
  SFis_nan a = false -> SFis_nan b = false ->
  (SFeqb a b = true <-> SFkey a = SFkey b).
Proof.
  unfold SFeqb.
  destruct a as [sa|sa| |sa ma ea], b as [sb|sb| |sb mb eb];
    try discriminate; intros _ _;
    try (destruct sa); try (destruct sb); cbn;
    try (split; intro H; first [discriminate | reflexivity]);
    change (Pos.compare_cont Eq ma mb) with (Pos.compare ma mb);
    destruct (Z.compare_spec ea eb) as [He|He|He];
    destruct (Pos.compare_spec ma mb) as [Hm|Hm|Hm]; cbn;
    split; intro H;
    first [ discriminate
          | subst; reflexivity
          | exfalso; inversion H; lia ].
Qed.

Lemma SFeqb_self (a : spec_float) : SFeqb a a = negb (SFis_nan a).
Proof.
  destruct (SFis_nan a) eqn:Hn.
  - destruct a; try discriminate. reflexivity.
  - apply (SFeqb_key a a Hn Hn). reflexivity.
Qed.

Lemma is_nan_spec (d : float) : PrimFloat.is_nan d = SFis_nan (Prim2SF d).
Proof.
  unfold PrimFloat.is_nan. rewrite eqb_spec, SFeqb_self.
  apply negb_involutive.
Qed.

Lemma ltb_key (a b : float) :
  PrimFloat.is_nan a = false -> PrimFloat.is_nan b = false ->
  ((a <? b)%float = true <-> lex_lt (key a) (key b)).
Proof.
  rewrite !is_nan_spec, ltb_spec. apply SFltb_key.
Qed.

Lemma eqb_key (a b : float) :
  PrimFloat.is_nan a = false -> PrimFloat.is_nan b = false ->
  ((a =? b)%float = true <-> key a = key b).
Proof.
  rewrite !is_nan_spec, eqb_spec. apply SFeqb_key.
Qed.

Lemma ltb_not_nan (a b : float) :
  (a <? b)%float = true ->
  PrimFloat.is_nan a = false /\ PrimFloat.is_nan b = false.
Proof.
  rewrite !is_nan_spec, ltb_spec. apply SFltb_not_nan.
Qed.

Lemma eqb_not_nan (a b : float) :
  (a =? b)%float = true ->
  PrimFloat.is_nan a = false /\ PrimFloat.is_nan b = false.
Proof.
  rewrite !is_nan_spec, eqb_spec. apply SFeqb_not_nan.
Qed.

Lemma nan_ltb_l (a b : float) :
  PrimFloat.is_nan a = true -> (a <? b)%float = false.
Proof.
  intro Hn. destruct (a <? b)%float eqn:E; [ | reflexivity ].
  apply ltb_not_nan in E. destruct E as [E _]. congruence.
Qed.

Lemma nan_ltb_r (a b : float) :
  PrimFloat.is_nan b = true -> (a <? b)%float = false.
Proof.
  intro Hn. destruct (a <? b)%float eqn:E; [ | reflexivity ].
  apply ltb_not_nan in E. destruct E as [_ E]. congruence.
Qed.

(** Turn comparisons of non-NaN values into statements on their keys. *)
Ltac by_keys :=
  repeat match goal with
  | H : (?a <? ?b)%float = true |- _ =>
      let Ha := fresh "Hna" in let Hb := fresh "Hnb" in
      destruct (ltb_not_nan _ _ H) as [Ha Hb];
      apply (proj1 (ltb_key a b Ha Hb)) in H
  end.

Lemma ltb_irrefl (a : float) : (a <? a)%float = false.
Proof.
  destruct (a <? a)%float eqn:E; [ | reflexivity ].
  by_keys. unfold lex_lt in E. exfalso; lia.
Qed.

Lemma ltb_asym (a b : float) :
  (a <? b)%float = true -> (b <? a)%float = false.
Proof.
  intro H. destruct (b <? a)%float eqn:E; [ | reflexivity ].
  by_keys. unfold lex_lt in *. exfalso; lia.
Qed.

Lemma ltb_trans (a b c : float) :
  (a <? b)%float = true -> (b <? c)%float = true -> (a <? c)%float = true.
Proof.
  intros H1 H2.
  destruct (ltb_not_nan _ _ H1) as [Ha _].
  destruct (ltb_not_nan _ _ H2) as [_ Hc].
  apply (ltb_key a c Ha Hc). by_keys. unfold lex_lt in *. lia.
Qed.

(** On non-NaN values, "not below" is transitive. *)
Lemma ltb_false_trans (a b c : float) :
  PrimFloat.is_nan b = false ->
  (b <? a)%float = false -> (c <? b)%float = false -> (c <? a)%float = false.
Proof.
  intros Hb H1 H2. destruct (c <? a)%float eqn:E; [ | reflexivity ].
  destruct (ltb_not_nan _ _ E) as [Hc Ha].
  assert (K1 : ~ lex_lt (key b) (key a))
    by (intro K; apply (ltb_key b a Hb Ha) in K; congruence).
  assert (K2 : ~ lex_lt (key c) (key b))
    by (intro K; apply (ltb_key c b Hc Hb) in K; congruence).
  by_keys. unfold lex_lt in *. exfalso; lia.
Qed.

Lemma ltb_total (a b : float) :
  PrimFloat.is_nan a = false -> PrimFloat.is_nan b = false ->
  (a <? b)%float = false -> (b <? a)%float = false -> (a =? b)%float = true.
Proof.
  intros Ha Hb H1 H2. apply (eqb_key a b Ha Hb).
  assert (K1 : ~ lex_lt (key a) (key b))
    by (intro K; apply (ltb_key a b Ha Hb) in K; congruence).
  assert (K2 : ~ lex_lt (key b) (key a))
    by (intro K; apply (ltb_key b a Hb Ha) in K; congruence).
  unfold lex_lt in *.
  destruct (key a) as [a1 [a2 a3]], (key b) as [b1 [b2 b3]]; cbn in *.
  assert (a1 = b1) by lia. assert (a2 = b2) by lia. assert (a3 = b3) by lia.
  congruence.
Qed.

Lemma eqb_not_ltb (a b : float) :
  (a =? b)%float = true -> (a <? b)%float = false /\ (b <? a)%float = false.
Proof.
  intro H. destruct (eqb_not_nan _ _ H) as [Ha Hb].
  apply (eqb_key a b Ha Hb) in H.
  split.
  - destruct (a <? b)%float eqn:E; [ | reflexivity ].
    by_keys. rewrite H in E. unfold lex_lt in E. exfalso; lia.
  - destruct (b <? a)%float eqn:E; [ | reflexivity ].
    by_keys. rewrite H in E. unfold lex_lt in E. exfalso; lia.
Qed.

Lemma ltb_eqb_r (a b c : float) :
  (a <? b)%float = true -> (b =? c)%float = true -> (a <? c)%float = true.
Proof.
  intros H1 H2.
  destruct (ltb_not_nan _ _ H1) as [Ha Hb].
  destruct (eqb_not_nan _ _ H2) as [_ Hc].
  apply (eqb_key b c Hb Hc) in H2.
  apply (ltb_key a c Ha Hc). rewrite <- H2. apply (ltb_key a b Ha Hb), H1.
Qed.

Lemma ltb_eqb_l (a b c : float) :
  (a =? b)%float = true -> (a <? c)%float = true -> (b <? c)%float = true.
Proof.
  intros H1 H2.
  destruct (eqb_not_nan _ _ H1) as [Ha Hb].
  destruct (ltb_not_nan _ _ H2) as [_ Hc].
  apply (eqb_key a b Ha Hb) in H1.
  apply (ltb_key b c Hb Hc). rewrite <- H1. apply (ltb_key a c Ha Hc), H2.
Qed.

End DoubleOrderFacts.

(** ** Facts on the interpolator *)

Module InterpolationFacts.

Import DoubleOrderFacts Interpolation.

(** *** Indexing *)

Lemma at_app_r (pre l : vector double) (k : nat) :
  at_ (pre ++ l) (length pre + k) = at_ l k.
Proof. unfold at_. apply app_nth2_plus. Qed.

Lemma at_map (v : vector double) (p : list nat) (k : nat) :
  k < length p -> at_ (map (at_ v) p) k = at_ v (nth k p 0).
Proof.
  intro Hk. unfold at_ at 1.
  rewrite (nth_indep (map (at_ v) p) 0%float (at_ v 0))
    by (rewrite length_map; exact Hk).
  apply map_nth.
Qed.

Lemma nth_last (p : list nat) :
  nth (length p - 1) p 0 = last p 0.
Proof.
  induction p as [|a p IH]; [reflexivity | ].
  destruct p as [|b q]; [reflexivity | ].
  replace (length (a :: b :: q) - 1) with (S (length (b :: q) - 1))
    by (cbn [length]; lia).
  exact IH.
Qed.

(** *** The duplicate check *)

Lemma unique_loop_scan (pre l : vector double) (h : heap) :
  unique_loop (pre ++ l) (length pre) (length l - 1) h =
  match first_duplicate l with
  | Some d => (inl (DuplicateAbscissa d), h)
  | None => (inr tt, h)
  end.
Proof.
  revert pre. induction l as [|a t IH]; intro pre; [reflexivity | ].
  destruct t as [|b t']; [reflexivity | ].
  change (length (a :: b :: t') - 1) with (S (length t')).
  cbn [unique_loop first_duplicate].
  replace (at_ (pre ++ a :: b :: t') (length pre)) with a
    by (rewrite <- (Nat.add_0_r (length pre)) at 1; rewrite at_app_r;
        reflexivity).
  replace (at_ (pre ++ a :: b :: t') (length pre + 1)) with b
    by (rewrite at_app_r; reflexivity).
  destruct (a =? b)%float; [reflexivity | ].
  replace (pre ++ a :: b :: t') with ((pre ++ [a]) ++ b :: t')
    by (rewrite <- app_assoc; reflexivity).
  replace (S (length pre)) with (length (pre ++ [a]))
    by (rewrite length_app; cbn [length]; lia).
  replace (length t') with (length (b :: t') - 1) by (cbn [length]; lia).
  apply IH.
Qed.

Lemma unique_loop_first_duplicate (l : vector double) (h : heap) :
  unique_loop l 0 (length l - 1) h =
  match first_duplicate l with
  | Some d => (inl (DuplicateAbscissa d), h)
  | None => (inr tt, h)
  end.
Proof. exact (unique_loop_scan [] l h). Qed.

Lemma first_duplicate_none (l : vector double) :
  first_duplicate l = None <-> adjacent_equal l = false.
Proof.
  induction l as [|a t IH]; [split; reflexivity | ].
  destruct t as [|b t']; [split; reflexivity | ].
  cbn [first_duplicate adjacent_equal].
  destruct (a =? b)%float; cbn [orb]; [split; discriminate | exact IH].
Qed.

Lemma first_duplicate_some (l : vector double) (d : double) :
  first_duplicate l = Some d -> adjacent_equal l = true.
Proof.
  intro H. destruct (adjacent_equal l) eqn:E; [reflexivity | ].
  apply first_duplicate_none in E. congruence.
Qed.

(** *** The constructor, statement by statement *)

Section Constructor.

Context {G : GSL}.

Lemma construct_eq (x y : vector double) (h : heap) :
  construct x y h =
  if negb (length y =? length x) then (inl InvalidInput, h)
  else if length x <? 3 then (inl InsufficientData, h)
  else
    let p := generate_sort_permutation x less in
    let sorted_x := apply_permutation x p in
    let sorted_y := apply_permutation y p in
    match first_duplicate sorted_x with
    | Some d => (inl (DuplicateAbscissa d), h)
    | None =>
        (inr {| first_x_ := front sorted_x;
                last_x_ := back sorted_x;
                first_y_ := front sorted_y;
                last_y_ := back sorted_y;
                acc_ := gsl_interp_accel_alloc;
                spline_ :=
                  gsl_spline_init
                    (gsl_spline_alloc gsl_interp_cspline (length x))
                    sorted_x sorted_y (length x) |},
         S (S h))
    end.
Proof.
  unfold construct.
  destruct (negb (length y =? length x)); [reflexivity | ].
  destruct (length x <? 3); [reflexivity | ].
  cbv zeta. unfold bind.
  rewrite unique_loop_first_duplicate.
  destruct (first_duplicate _); reflexivity.
Qed.

(** When neither comparison of [operator()] fires, its value is the one
    [gsl_spline_eval] returns, and the accelerator is the one it leaves. *)
Lemma evaluate_in_domain (it : InterpolateDataSpline G) (xi : double) :
  (xi <? first_x_ it)%float = false -> (last_x_ it <? xi)%float = false ->
  fst (evaluate it xi) = fst (gsl_spline_eval (spline_ it) xi (acc_ it))
  /\ acc_ (snd (evaluate it xi))
     = snd (gsl_spline_eval (spline_ it) xi (acc_ it)).
Proof.
  intros Hlo Hhi. unfold evaluate, spline_branch. rewrite Hlo, Hhi.
  destruct (gsl_spline_eval (spline_ it) xi (acc_ it)). split; reflexivity.
Qed.

Lemma evaluate_samples (it : InterpolateDataSpline G) (xi : double) :
  samples (snd (evaluate it xi)) = samples it.
Proof.
  unfold evaluate, spline_branch.
  destruct (xi <? first_x_ it)%float; [reflexivity | ].
  destruct (last_x_ it <? xi)%float; [reflexivity | ].
  destruct (gsl_spline_eval (spline_ it) xi (acc_ it)); reflexivity.
Qed.

Lemma evaluate_all_samples (calls : list double)
  (it : InterpolateDataSpline G) :
  samples (evaluate_all it calls) = samples it.
Proof.
  revert it. induction calls as [|xi calls IH]; intro it; [reflexivity | ].
  cbn [evaluate_all fold_left]. fold (evaluate_all (snd (evaluate it xi)) calls).
  rewrite IH. apply evaluate_samples.
Qed.

End Constructor.

(** *** The sort permutation *)

Lemma insert_index_perm (v : vector double) (c : double -> double -> bool)
  (i : nat) (p : list nat) :
  Permutation (insert_index v c i p) (i :: p).
Proof.
  induction p as [|j q IH]; cbn [insert_index]; [apply Permutation_refl | ].
  destruct (c (at_ v j) (at_ v i)); [ | apply Permutation_refl ].
  apply perm_trans with (j :: i :: q); [apply perm_skip, IH | apply perm_swap].
Qed.

Lemma sort_indices_perm (v : vector double) (c : double -> double -> bool)
  (l : list nat) :
  Permutation (fold_right (insert_index v c) [] l) l.
Proof.
  induction l as [|i l IH]; cbn [fold_right]; [constructor | ].
  eapply perm_trans; [apply insert_index_perm | apply perm_skip, IH].
Qed.

Lemma generate_sort_permutation_perm (v : vector double)
  (c : double -> double -> bool) :
  Permutation (generate_sort_permutation v c) (seq 0 (length v)).
Proof. apply sort_indices_perm. Qed.

Lemma generate_sort_permutation_length (v : vector double)
  (c : double -> double -> bool) :
  length (generate_sort_permutation v c) = length v.
Proof.
  rewrite (Permutation_length (generate_sort_permutation_perm v c)).
  apply length_seq.
Qed.

Lemma generate_sort_permutation_in (v : vector double)
  (c : double -> double -> bool) (i : nat) :
  In i (generate_sort_permutation v c) <-> i < length v.
Proof.
  split; intro H.
  - apply (Permutation_in _ (generate_sort_permutation_perm v c)) in H.
    apply in_seq in H. lia.
  - apply (Permutation_in _ (Permutation_sym
                               (generate_sort_permutation_perm v c))).
    apply in_seq. lia.
Qed.

Lemma stable_before_not_above (v : vector double) (i j : nat) :
  stable_before v i j -> (at_ v j <? at_ v i)%float = false.
Proof.
  intros [H | [H _]]; [apply ltb_asym, H | exact H].
Qed.

Lemma insert_index_stable (v : vector double) (i : nat) (p : list nat) :
  (forall k, In k (i :: p) -> PrimFloat.is_nan (at_ v k) = false) ->
  Forall (fun j => i < j) p ->
  StronglySorted (stable_before v) p ->
  StronglySorted (stable_before v) (insert_index v less i p).
Proof.
  induction p as [|j q IH]; intros Hn Hlt Hs; cbn [insert_index].
  - constructor; constructor.
  - inversion Hs as [|? ? Hsq Hjq]; subst.
    inversion Hlt as [|? ? Hij Hiq]; subst.
    destruct (less (at_ v j) (at_ v i)) eqn:E; unfold less in E.
    + constructor.
      * apply IH; trivial.
        intros k [Hk | Hk]; apply Hn; [left | right; right]; exact Hk.
      * apply (Permutation_Forall
                 (Permutation_sym (insert_index_perm v less i q))).
        constructor; [left; exact E | exact Hjq].
    + constructor; [exact Hs | ].
      constructor; [right; split; [exact E | exact Hij] | ].
      rewrite Forall_forall in *. intros k Hk.
      right. split; [ | apply Hiq, Hk ].
      apply ltb_false_trans with (b := at_ v j).
      * apply Hn. right; left; reflexivity.
      * exact E.
      * apply stable_before_not_above, Hjq, Hk.
Qed.

Lemma sort_indices_stable (v : vector double) (l : list nat) :
  (forall k, In k l -> PrimFloat.is_nan (at_ v k) = false) ->
  StronglySorted lt l ->
  StronglySorted (stable_before v) (fold_right (insert_index v less) [] l).
Proof.
  induction l as [|i l IH]; intros Hn Hs; cbn [fold_right]; [constructor | ].
  inversion Hs as [|? ? Hsl Hil]; subst.
  apply insert_index_stable.
  - intros k [Hk | Hk]; apply Hn; [left; exact Hk | right].
    apply (Permutation_in _ (sort_indices_perm v less l)), Hk.
  - apply (Permutation_Forall (Permutation_sym (sort_indices_perm v less l))).
    exact Hil.
  - apply IH; [ | exact Hsl]. intros k Hk. apply Hn. right; exact Hk.
Qed.

Lemma seq_increasing (a n : nat) : StronglySorted lt (seq a n).
Proof.
  revert a. induction n as [|n IH]; intro a; cbn [seq]; constructor.
  - apply IH.
  - apply Forall_forall. intros k Hk. apply in_seq in Hk. lia.
Qed.

Lemma generate_sort_permutation_stable (v : vector double) :
  no_nan v ->
  StronglySorted (stable_before v) (generate_sort_permutation v less).
Proof.
  intro Hn. apply sort_indices_stable; [ | apply seq_increasing ].
  intros k Hk. apply Hn. apply in_seq in Hk. lia.
Qed.

Lemma stable_sorted_ascending (v : vector double) (p : list nat) :
  StronglySorted (stable_before v) p -> ascending (map (at_ v) p).
Proof.
  unfold ascending.
  induction 1 as [|i p Hs IH Hi]; cbn [map]; constructor; [exact IH | ].
  apply Forall_forall. intros b Hb.
  apply in_map_iff in Hb. destruct Hb as [j [<- Hj]].
  rewrite Forall_forall in Hi. apply stable_before_not_above, Hi, Hj.
Qed.

Lemma ascending_strict (l : vector double) :
  (forall a, In a l -> PrimFloat.is_nan a = false) ->
  ascending l -> adjacent_equal l = false -> strictly_ascending l.
Proof.
  unfold ascending, strictly_ascending.
  induction l as [|a t IH]; intros Hn Ha He; [constructor | ].
  inversion Ha as [|? ? Hat Hall]; subst.
  destruct t as [|b t']; [constructor; constructor | ].
  cbn [adjacent_equal] in He. apply orb_false_iff in He.
  destruct He as [Hab Het].
  assert (Ht : StronglySorted (fun a b => (a <? b)%float = true) (b :: t')).
  { apply IH; trivial. intros c Hc. apply Hn. right; exact Hc. }
  assert (Hlt : (a <? b)%float = true).
  { destruct (a <? b)%float eqn:E; [reflexivity | exfalso ].
    assert (Heq : (a =? b)%float = true); [ | congruence ].
    apply ltb_total.
    - apply Hn. left; reflexivity.
    - apply Hn. right; left; reflexivity.
    - exact E.
    - inversion Hall; assumption. }
  constructor; [exact Ht | ].
  constructor; [exact Hlt | ].
  inversion Ht as [|? ? _ Hbt]; subst.
  rewrite Forall_forall in *. intros c Hc.
  apply ltb_trans with (b := b); [exact Hlt | apply Hbt, Hc].
Qed.

Lemma strictly_ascending_indices (v : vector double) (p : list nat) :
  strictly_ascending (map (at_ v) p) ->
  StronglySorted (fun i j => (at_ v i <? at_ v j)%float = true) p.
Proof.
  unfold strictly_ascending.
  induction p as [|i p IH]; cbn [map]; intro H; [constructor | ].
  inversion H as [|? ? Hs Hi]; subst.
  constructor; [apply IH, Hs | ].
  rewrite Forall_forall in *. intros j Hj.
  apply Hi, in_map, Hj.
Qed.

Lemma last_in (l : list nat) : l <> [] -> In (last l 0) l.
Proof.
  induction l as [|a [|b l] IH];
    [congruence | left; reflexivity | intros _; right; apply IH; discriminate].
Qed.

Lemma sorted_snoc {A : Type} (R : A -> A -> Prop) (q : list A) (m : A) :
  StronglySorted R (q ++ [m]) -> Forall (fun a => R a m) q.
Proof.
  induction q as [|a q IH]; cbn [app]; intro H; [constructor | ].
  inversion H as [|? ? Hs Ha]; subst.
  constructor; [ | apply IH, Hs ].
  rewrite Forall_forall in Ha. apply Ha, in_or_app. right; left; reflexivity.
Qed.

(** *** Smallest and largest sample *)

Section Bounds.

Variable x : vector double.
Variable p : list nat.
Hypothesis p_indices : forall i, In i p <-> i < length x.
Hypothesis p_strict :
  StronglySorted (fun i j => (at_ x i <? at_ x j)%float = true) p.

Lemma min_is_head (i : nat) : is_min x i -> i = hd 0 p.
Proof.
  intros [Hi Hmin]. apply p_indices in Hi.
  destruct p as [|i0 q]; [contradiction | ].
  destruct Hi as [Hi | Hi]; [symmetry; exact Hi | exfalso].
  inversion p_strict as [|? ? _ Hall]; subst.
  rewrite Forall_forall in Hall. specialize (Hall i Hi).
  rewrite Hmin in Hall; [discriminate | ].
  apply p_indices. left; reflexivity.
Qed.

Lemma head_is_min : p <> [] -> is_min x (hd 0 p).
Proof.
  destruct p as [|i0 q]; [congruence | intros _; cbn [hd]].
  split; [apply p_indices; left; reflexivity | ].
  intros j Hj. apply p_indices in Hj.
  destruct Hj as [<- | Hj]; [apply ltb_irrefl | ].
  inversion p_strict as [|? ? _ Hall]; subst.
  rewrite Forall_forall in Hall. apply ltb_asym, Hall, Hj.
Qed.

Lemma max_is_last (i : nat) : is_max x i -> i = last p 0.
Proof.
  intros [Hi Hmax]. apply p_indices in Hi.
  assert (Hne : p <> []) by (intro E; rewrite E in Hi; contradiction).
  pose proof (app_removelast_last 0 Hne) as Hp.
  pose proof (last_in p Hne) as Hin.
  pose proof p_strict as Hs.
  set (q := removelast p) in *. set (m := last p 0) in *.
  rewrite Hp in Hs, Hi.
  apply sorted_snoc in Hs. rewrite Forall_forall in Hs.
  apply in_app_or in Hi. destruct Hi as [Hi | [Hi | []]];
    [exfalso | symmetry; exact Hi].
  specialize (Hs i Hi). cbn beta in Hs.
  rewrite Hmax in Hs; [discriminate | ].
  apply p_indices, Hin.
Qed.

Lemma last_is_max : p <> [] -> is_max x (last p 0).
Proof.
  intro Hne. pose proof (app_removelast_last 0 Hne) as Hp.
  pose proof (last_in p Hne) as Hin.
  split; [apply p_indices, Hin | ].
  intros j Hj. apply p_indices in Hj.
  pose proof p_strict as Hs.
  set (q := removelast p) in *. set (m := last p 0) in *.
  rewrite Hp in Hs, Hj.
  apply sorted_snoc in Hs. rewrite Forall_forall in Hs.
  apply in_app_or in Hj. destruct Hj as [Hj | [<- | []]];
    [apply ltb_asym, Hs, Hj | apply ltb_irrefl].
Qed.

End Bounds.

(** *** What a constructed object holds *)

Section Constructed.

Context {G : GSL}.

Lemma constructed_inv (x y : vector double) (it : InterpolateDataSpline G) :
  constructed_from x y it ->
  let p := generate_sort_permutation x less in
  length y = length x /\ 3 <= length x
  /\ adjacent_equal (apply_permutation x p) = false
  /\ samples it =
     (at_ x (hd 0 p), at_ x (last p 0), at_ y (hd 0 p), at_ y (last p 0),
      gsl_spline_init (gsl_spline_alloc gsl_interp_cspline (length x))
        (apply_permutation x p) (apply_permutation y p) (length x)).
Proof.
  intro H. induction H as [h it h' Hc | it xi H IH].
  - rewrite construct_eq in Hc.
    destruct (Nat.eqb_spec (length y) (length x)) as [Hlen | Hlen];
      [cbn [negb] in Hc | discriminate].
    destruct (Nat.ltb_spec (length x) 3) as [Hn | Hn]; [discriminate | ].
    cbv zeta in Hc |- *.
    set (p := generate_sort_permutation x less) in *.
    assert (Hp : length p = length x)
      by apply generate_sort_permutation_length.
    destruct (first_duplicate (apply_permutation x p)) eqn:Hd;
      [discriminate | ].
    apply first_duplicate_none in Hd.
    inversion Hc; subst it h'; clear Hc.
    repeat split; trivial.
    unfold samples, front, back, apply_permutation; cbn.
    rewrite !length_map, !at_map by lia.
    rewrite nth_last.
    replace (nth 0 p 0) with (hd 0 p) by (destruct p; reflexivity).
    reflexivity.
  - rewrite evaluate_samples. exact IH.
Qed.

Lemma constructed_strict (x y : vector double)
  (it : InterpolateDataSpline G) :
  no_nan x -> constructed_from x y it ->
  StronglySorted (fun i j => (at_ x i <? at_ x j)%float = true)
    (generate_sort_permutation x less).
Proof.
  intros Hn Hc. destruct (constructed_inv x y it Hc) as (_ & _ & Hadj & _).
  apply strictly_ascending_indices, ascending_strict; trivial.
  - intros a Ha. apply in_map_iff in Ha. destruct Ha as [i [<- Hi]].
    apply Hn. apply generate_sort_permutation_in in Hi. exact Hi.
  - apply stable_sorted_ascending, generate_sort_permutation_stable, Hn.
Qed.

Lemma constructed_nonempty (x y : vector double)
  (it : InterpolateDataSpline G) :
  constructed_from x y it -> generate_sort_permutation x less <> [].
Proof.
  intros Hc E. destruct (constructed_inv x y it Hc) as (_ & Hlen & _).
  pose proof (generate_sort_permutation_length x less) as Hp.
  rewrite E in Hp. cbn in Hp. lia.
Qed.

(** The stored bounds are the smallest and the largest abscissa, each with
    the ordinate it came with. *)
Lemma constructed_bounds (x y : vector double)
  (it : InterpolateDataSpline G) (imin imax : nat) :
  no_nan x -> constructed_from x y it ->
  is_min x imin -> is_max x imax ->
  first_x_ it = at_ x imin /\ first_y_ it = at_ y imin
  /\ last_x_ it = at_ x imax /\ last_y_ it = at_ y imax.
Proof.
  intros Hn Hc Hmin Hmax.
  pose proof (constructed_strict x y it Hn Hc) as Hs.
  destruct (constructed_inv x y it Hc) as (_ & _ & _ & Hsam).
  apply (min_is_head x _ (generate_sort_permutation_in x less) Hs) in Hmin.
  apply (max_is_last x _ (generate_sort_permutation_in x less) Hs) in Hmax.
  unfold samples in Hsam. inversion Hsam.
  rewrite Hmin, Hmax. repeat split; assumption.
Qed.

Lemma constructed_has_bounds (x y : vector double)
  (it : InterpolateDataSpline G) :
  no_nan x -> constructed_from x y it ->
  (exists imin, is_min x imin) /\ (exists imax, is_max x imax).
Proof.
  intros Hn Hc.
  pose proof (constructed_strict x y it Hn Hc) as Hs.
  pose proof (constructed_nonempty x y it Hc) as Hne.
  split.
  - exists (hd 0 (generate_sort_permutation x less)).
    apply (head_is_min x _ (generate_sort_permutation_in x less) Hs Hne).
  - exists (last (generate_sort_permutation x less) 0).
    apply (last_is_max x _ (generate_sort_permutation_in x less) Hs Hne).
Qed.

End Constructed.

End InterpolationFacts.

(** ** The constructor's errors *)

Module ConstructorSpec.

Import DoubleOrderFacts Interpolation InterpolationFacts.

Lemma first_duplicate_index (l : vector double) (d : double) :
  first_duplicate l = Some d ->
  exists i, i + 1 < length l /\ at_ l i = d
            /\ (at_ l i =? at_ l (i + 1))%float = true
            /\ forall k, k < i -> (at_ l k =? at_ l (k + 1))%float = false.
Proof.
  induction l as [|a t IH]; [discriminate | ].
  destruct t as [|b t']; [discriminate | ].
  cbn [first_duplicate]. destruct (a =? b)%float eqn:E.
  - intro H. injection H as <-. exists 0. cbn [length].
    repeat split; [lia | exact E | intros k Hk; lia].
  - intro H. destruct (IH H) as (i & Hi & Hd & He & Hmin).
    exists (S i). cbn [length] in *. repeat split; [lia | exact Hd | exact He | ].
    intros [|k] Hk; [exact E | apply Hmin; lia].
Qed.

Lemma errors_distinct (d : double) :
  InvalidInput <> InsufficientData
  /\ InvalidInput <> DuplicateAbscissa d
  /\ InsufficientData <> DuplicateAbscissa d.
Proof. repeat split; discriminate. Qed.

Lemma length_mismatch_throws {G : GSL} (x y : vector double) (h : heap) :
  length y <> length x -> construct x y h = (inl InvalidInput, h).
Proof.
  intro H. rewrite construct_eq.
  destruct (Nat.eqb_spec (length y) (length x)); [contradiction | reflexivity].
Qed.

Lemma too_few_points_throws {G : GSL} (x y : vector double) (h : heap) :
  length y = length x -> length x < 3 ->
  construct x y h = (inl InsufficientData, h).
Proof.
  intros H1 H2. rewrite construct_eq.
  destruct (Nat.eqb_spec (length y) (length x)); [ | contradiction ].
  destruct (Nat.ltb_spec (length x) 3); [reflexivity | lia].
Qed.

Lemma duplicate_throws {G : GSL} (x y : vector double) (h : heap)
  (d : double) :
  length y = length x -> 3 <= length x ->
  first_duplicate
    (apply_permutation x (generate_sort_permutation x less)) = Some d ->
  construct x y h = (inl (DuplicateAbscissa d), h).
Proof.
  intros H1 H2 H3. rewrite construct_eq.
  destruct (Nat.eqb_spec (length y) (length x)); [ | contradiction ].
  destruct (Nat.ltb_spec (length x) 3); [lia | ].
  cbv zeta. rewrite H3. reflexivity.
Qed.

Lemma failure_allocates_nothing {G : GSL} (x y : vector double) (h h' : heap)
  (e : exception) :
  construct x y h = (inl e, h') -> h' = h.
Proof.
  rewrite construct_eq.
  destruct (negb (length y =? length x)); [congruence | ].
  destruct (length x <? 3); [congruence | ].
  cbv zeta. destruct (first_duplicate _); congruence.
Qed.

(** C4: construction from sequences of different lengths throws the
    equal-length error ([InvalidInput]); and whenever construction throws,
    whatever the error, the result is the exception alone, with no GSL
    object allocated (the heap is as before), so no partly built
    interpolator exists. *)
Theorem construct_length_mismatch {G : GSL} (x y : vector double)
  (h : heap) :
  (length y <> length x -> construct x y h = (inl InvalidInput, h))
  /\ (forall e h', construct x y h = (inl e, h') -> h' = h)
  /\ (forall e, fst (construct x y h) = inl e ->
      forall it, fst (construct x y h) <> inr it).
Proof.
  split; [apply length_mismatch_throws | ].
  split; [intros e h'; apply failure_allocates_nothing | ].
  intros e He it Hit. congruence.
Qed.

(** C5: construction from two sequences of the same length with fewer than
    3 points throws the at-least-3-points error ([InsufficientData]). *)
Theorem construct_insufficient_data {G : GSL} (x y : vector double)
  (h : heap) :
  length y = length x -> length x < 3 ->
  construct x y h = (inl InsufficientData, h).
Proof. apply too_few_points_throws. Qed.

(** C5, at exactly 2 points. *)
Lemma construct_insufficient_data_witness :
  construct (G := LinearGSL.gsl) [1; 2]%float [10; 20]%float 0
  = (inl InsufficientData, 0).
Proof.
  apply (@construct_insufficient_data LinearGSL.gsl
           [1; 2]%float [10; 20]%float 0).
  - reflexivity.
  - cbn [length]. lia.
Defined.

(** C10: the checks run in the order lengths, number of points, duplicate
    abscissae. Different lengths give the equal-length error whatever the
    number of points and the duplicates; equal lengths below 3 give the
    at-least-3-points error whatever the duplicates; only then is a
    duplicate reported. The three errors are distinct, and x = [1, 1] with
    y of length 3, which breaks all three conditions, reports the length
    mismatch. *)
Theorem construct_check_order {G : GSL} (x y : vector double) (h : heap) :
  (length y <> length x -> construct x y h = (inl InvalidInput, h))
  /\ (length y = length x -> length x < 3 ->
      construct x y h = (inl InsufficientData, h))
  /\ (forall d, length y = length x -> 3 <= length x ->
      first_duplicate
        (apply_permutation x (generate_sort_permutation x less)) = Some d ->
      construct x y h = (inl (DuplicateAbscissa d), h))
  /\ (forall d, InvalidInput <> InsufficientData
                /\ InvalidInput <> DuplicateAbscissa d
                /\ InsufficientData <> DuplicateAbscissa d)
  /\ construct [1; 1]%float [1; 2; 3]%float h = (inl InvalidInput, h).
Proof.
  split; [apply length_mismatch_throws | ].
  split; [apply too_few_points_throws | ].
  split; [intro d; apply duplicate_throws | ].
  split; [apply errors_distinct | ].
  apply length_mismatch_throws. cbn [length]. lia.
Qed.

(** C2, as stated, fails: x = [0.0, -0.0, 1.0] is rejected as holding a
    duplicate (named 0), although no two neighbours of the sorted
    abscissae are the same bit pattern; the source compares with [==]. *)
Lemma construct_duplicate_not_bit_exact :
  construct (G := LinearGSL.gsl) [0; -0; 1]%float [1; 2; 3]%float 0
  = (inl (DuplicateAbscissa 0%float), 0)
  /\ adjacent_bit_equal
       (apply_permutation [0; -0; 1]%float
          (generate_sort_permutation [0; -0; 1]%float less)) = false.
Proof. split; vm_compute; reflexivity. Qed.

(** C2, amended: construction throws the duplicate error naming [d]
    exactly when the lengths agree, there are at least 3 points, and [d] is
    the first abscissa, in sorted order, that compares equal ([==]) to its
    right neighbour; some duplicate error is thrown exactly when, in
    addition to the first two conditions, two neighbours of the sorted
    abscissae compare equal. Constructing from [(1,1),(1,2),(2,3)] throws
    it naming 1. *)
Theorem construct_duplicate_abscissa {G : GSL} (x y : vector double)
  (h : heap) :
  let sorted_x := apply_permutation x (generate_sort_permutation x less) in
  (forall d,
     construct x y h = (inl (DuplicateAbscissa d), h)
     <-> (length y = length x /\ 3 <= length x
          /\ exists i, i + 1 < length x /\ at_ sorted_x i = d
             /\ (at_ sorted_x i =? at_ sorted_x (i + 1))%float = true
             /\ forall k, k < i ->
                  (at_ sorted_x k =? at_ sorted_x (k + 1))%float = false))
  /\ ((exists d, construct x y h = (inl (DuplicateAbscissa d), h))
      <-> (length y = length x /\ 3 <= length x
           /\ adjacent_equal sorted_x = true))
  /\ construct [1; 1; 2]%float [1; 2; 3]%float h
     = (inl (DuplicateAbscissa 1%float), h).
Proof.
  cbv zeta.
  set (sorted_x := apply_permutation x (generate_sort_permutation x less)).
  assert (Hlen : length sorted_x = length x).
  { unfold sorted_x, apply_permutation.
    rewrite length_map. apply generate_sort_permutation_length. }
  assert (Hthrown : forall d,
             construct x y h = (inl (DuplicateAbscissa d), h) ->
             length y = length x /\ 3 <= length x
             /\ first_duplicate sorted_x = Some d).
  { intros d H. rewrite construct_eq in H.
    destruct (Nat.eqb_spec (length y) (length x)); [ | discriminate ].
    destruct (Nat.ltb_spec (length x) 3); [discriminate | ].
    cbv zeta in H. fold sorted_x in H.
    destruct (first_duplicate sorted_x) as [d' | ]; [ | discriminate ].
    injection H as ->. repeat split; trivial. }
  split; [ | split ].
  - intro d. split.
    + intro H. destruct (Hthrown d H) as (H1 & H2 & H3).
      repeat split; trivial.
      rewrite <- Hlen. apply first_duplicate_index, H3.
    + intros (H1 & H2 & i & Hi & Hd & He & Hmin).
      apply duplicate_throws; trivial. fold sorted_x.
      destruct (first_duplicate sorted_x) as [d' | ] eqn:E.
      * destruct (first_duplicate_index _ _ E)
          as (i' & Hi' & Hd' & He' & Hmin').
        destruct (Nat.lt_trichotomy i i') as [Hlt | [-> | Hgt]].
        -- rewrite (Hmin' i Hlt) in He. discriminate.
        -- congruence.
        -- rewrite (Hmin i' Hgt) in He'. discriminate.
      * apply first_duplicate_none in E.
        exfalso. clear - E He Hi Hlen. rewrite <- Hlen in Hi. clear Hlen.
        revert i Hi He. induction sorted_x as [|a t IH]; intros i Hi He;
          [cbn in Hi; lia | ].
        destruct t as [|b t']; [cbn in Hi; lia | ].
        cbn [adjacent_equal] in E. apply orb_false_iff in E.
        destruct E as [Eab Et].
        destruct i as [|i]; [cbn in He; congruence | ].
        apply (IH Et i); [cbn [length] in *; lia | exact He].
  - split.
    + intros [d H]. destruct (Hthrown d H) as (H1 & H2 & H3).
      repeat split; trivial. apply first_duplicate_some with d, H3.
    + intros (H1 & H2 & H3).
      destruct (first_duplicate sorted_x) as [d | ] eqn:E.
      * exists d. apply duplicate_throws; trivial.
      * apply first_duplicate_none in E. congruence.
  - apply duplicate_throws; reflexivity || (cbn [length]; lia).
Qed.

End ConstructorSpec.

(** ** Evaluation and the sorted samples *)

Module EvaluationSpec.

Import DoubleOrderFacts Interpolation InterpolationFacts.

(** *** The sample object *)

Lemma sample_no_nan : no_nan sample_x.
Proof.
  intros [|[|[|i]]] Hi; try reflexivity. cbn [sample_x length] in Hi. lia.
Qed.

Lemma sample_constructed : constructed_from sample_x sample_y sample_it.
Proof. apply cf_new with (h := 0) (h' := 2). reflexivity. Qed.

Lemma sample_min : is_min sample_x 1.
Proof.
  split; [cbn; lia | ].
  intros [|[|[|j]]] Hj; try reflexivity. cbn [sample_x length] in Hj. lia.
Qed.

Lemma sample_max : is_max sample_x 0.
Proof.
  split; [cbn; lia | ].
  intros [|[|[|j]]] Hj; try reflexivity. cbn [sample_x length] in Hj. lia.
Qed.

(** *** Pairs stay together *)

Lemma combine_at (x y : vector double) :
  length y = length x ->
  map (fun i => (at_ x i, at_ y i)) (seq 0 (length x)) = combine x y.
Proof.
  revert y. induction x as [|a x IH]; intros [|b y] Hlen;
    try discriminate; [reflexivity | ].
  cbn [length seq map combine]. f_equal.
  rewrite <- seq_shift, map_map. apply IH.
  cbn [length] in Hlen. lia.
Qed.

Lemma combine_apply_permutation (x y : vector double) (p : list nat) :
  combine (apply_permutation x p) (apply_permutation y p)
  = map (fun i => (at_ x i, at_ y i)) p.
Proof.
  unfold apply_permutation.
  induction p as [|i p IH]; [reflexivity | ].
  cbn [map combine]. rewrite IH. reflexivity.
Qed.

Section Evaluation.

Context {G : GSL}.

(** C1: for an interpolator built from samples without NaN abscissae, some
    sample holds the smallest abscissa and some the largest; below the
    smallest abscissa [evaluate] returns the ordinate paired with it, above
    the largest the ordinate paired with that one (a constant, not a
    linear continuation), and for every other argument it returns the
    value [gsl_spline_eval] computes on the cubic spline initialised with
    the sorted samples, leaving the accelerator as that call leaves it. *)
Theorem evaluate_constant_extrapolation (x y : vector double)
  (it : InterpolateDataSpline G) :
  no_nan x -> constructed_from x y it ->
  (exists imin, is_min x imin) /\ (exists imax, is_max x imax)
  /\ spline_ it =
     gsl_spline_init (gsl_spline_alloc gsl_interp_cspline (length x))
       (apply_permutation x (generate_sort_permutation x less))
       (apply_permutation y (generate_sort_permutation x less)) (length x)
  /\ forall imin imax xi, is_min x imin -> is_max x imax ->
       ((xi <? at_ x imin)%float = true ->
        fst (evaluate it xi) = at_ y imin)
       /\ ((at_ x imax <? xi)%float = true ->
           fst (evaluate it xi) = at_ y imax)
       /\ ((xi <? at_ x imin)%float = false ->
           (at_ x imax <? xi)%float = false ->
           fst (evaluate it xi)
           = fst (gsl_spline_eval (spline_ it) xi (acc_ it))
           /\ acc_ (snd (evaluate it xi))
              = snd (gsl_spline_eval (spline_ it) xi (acc_ it))).
Proof.
  intros Hn Hc.
  destruct (constructed_has_bounds x y it Hn Hc) as [Hmin Hmax].
  destruct (constructed_inv x y it Hc) as (_ & _ & _ & Hsam).
  split; [exact Hmin | ]. split; [exact Hmax | ].
  split; [unfold samples in Hsam; inversion Hsam; reflexivity | ].
  clear Hmin Hmax Hsam. intros imin imax xi Hmin Hmax.
  destruct (constructed_bounds x y it imin imax Hn Hc Hmin Hmax)
    as (Hfx & Hfy & Hlx & Hly).
  split; [ | split ].
  - unfold evaluate. rewrite Hfx, Hfy. intros ->. reflexivity.
  - unfold evaluate. rewrite Hfx, Hlx, Hly. intro Habove.
    destruct (xi <? at_ x imin)%float eqn:Hbelow.
    + exfalso. pose proof (ltb_trans _ _ _ Habove Hbelow) as Hcross.
      destruct Hmin as [_ Hmin]. destruct Hmax as [Himax _].
      rewrite (Hmin imax Himax) in Hcross. discriminate.
    + rewrite Habove. reflexivity.
  - intros Hlo Hhi. apply evaluate_in_domain; [rewrite Hfx | rewrite Hlx];
      assumption.
Qed.

(** C9: the comparisons are strict. A NaN argument fails both of them, on
    every object, and the value returned is the one [gsl_spline_eval]
    computes; and for an interpolator built from samples without NaN
    abscissae, an argument equal ([==]) to the smallest or to the largest
    abscissa (which are the stored bounds) fails both comparisons too, so
    that the value is again the one [gsl_spline_eval] computes, not the
    stored boundary ordinate. *)
Theorem evaluate_boundary_strict (x y : vector double)
  (it : InterpolateDataSpline G) :
  constructed_from x y it ->
  (forall xi, PrimFloat.is_nan xi = true ->
     (xi <? first_x_ it)%float = false
     /\ (last_x_ it <? xi)%float = false
     /\ fst (evaluate it xi)
        = fst (gsl_spline_eval (spline_ it) xi (acc_ it)))
  /\ (no_nan x ->
      forall imin imax xi, is_min x imin -> is_max x imax ->
        (xi =? at_ x imin)%float = true \/ (xi =? at_ x imax)%float = true ->
        (xi <? at_ x imin)%float = false
        /\ (at_ x imax <? xi)%float = false
        /\ first_x_ it = at_ x imin /\ last_x_ it = at_ x imax
        /\ fst (evaluate it xi)
           = fst (gsl_spline_eval (spline_ it) xi (acc_ it))).
Proof.
  intro Hc. split.
  - intros xi Hxi.
    pose proof (nan_ltb_l xi (first_x_ it) Hxi) as Hlo.
    pose proof (nan_ltb_r (last_x_ it) xi Hxi) as Hhi.
    repeat split; trivial. apply evaluate_in_domain; assumption.
  - intros Hn imin imax xi Hmin Hmax Heq.
    destruct (constructed_bounds x y it imin imax Hn Hc Hmin Hmax)
      as (Hfx & _ & Hlx & _).
    destruct Hmin as [Himin Hmin]. destruct Hmax as [Himax Hmax].
    assert (Hlo : (xi <? at_ x imin)%float = false).
    { destruct Heq as [Heq | Heq]; [exact (proj1 (eqb_not_ltb _ _ Heq)) | ].
      destruct (xi <? at_ x imin)%float eqn:E; [ | reflexivity ].
      pose proof (ltb_eqb_l _ _ _ Heq E) as Hcross.
      rewrite (Hmin imax Himax) in Hcross. discriminate. }
    assert (Hhi : (at_ x imax <? xi)%float = false).
    { destruct Heq as [Heq | Heq]; [ | exact (proj2 (eqb_not_ltb _ _ Heq)) ].
      destruct (at_ x imax <? xi)%float eqn:E; [ | reflexivity ].
      pose proof (ltb_eqb_r _ _ _ E Heq) as Hcross.
      rewrite (Hmin imax Himax) in Hcross. discriminate. }
    repeat split; trivial.
    apply evaluate_in_domain; [rewrite Hfx | rewrite Hlx]; assumption.
Qed.

(** C7: calls of [evaluate] leave the sample set (the bounds, their
    ordinates and the spline) as it was, and, the accelerator being only a
    cache for [gsl_spline_eval], the value returned for [xi] is the same
    after any sequence of other calls, in particular after a first call
    with the same [xi]. *)
Theorem evaluate_deterministic (it : InterpolateDataSpline G) :
  (forall xi a a',
     fst (gsl_spline_eval (spline_ it) xi a)
     = fst (gsl_spline_eval (spline_ it) xi a')) ->
  forall (calls : list double) (xi : double),
    samples (evaluate_all it calls) = samples it
    /\ fst (evaluate (evaluate_all it calls) xi) = fst (evaluate it xi)
    /\ fst (evaluate (snd (evaluate it xi)) xi) = fst (evaluate it xi).
Proof.
  intros Hcache calls xi.
  assert (Hsame : forall it', samples it' = samples it ->
                    fst (evaluate it' xi) = fst (evaluate it xi)).
  { intros it' Hs. unfold samples in Hs. inversion Hs as [[Hfx Hlx Hfy Hly Hsp]].
    unfold evaluate, spline_branch. rewrite Hfx, Hlx, Hfy, Hly, Hsp.
    destruct (xi <? first_x_ it)%float; [reflexivity | ].
    destruct (last_x_ it <? xi)%float; [reflexivity | ].
    specialize (Hcache xi (acc_ it') (acc_ it)).
    destruct (gsl_spline_eval (spline_ it) xi (acc_ it')),
             (gsl_spline_eval (spline_ it) xi (acc_ it)).
    exact Hcache. }
  split; [apply evaluate_all_samples | ].
  split; apply Hsame; [apply evaluate_all_samples | apply evaluate_samples].
Qed.

(** A sample abscissa lies inside the stored bounds. *)
Lemma sample_in_domain (x y : vector double)
  (it : InterpolateDataSpline G) (i : nat) :
  no_nan x -> constructed_from x y it -> i < length x ->
  (at_ x i <? first_x_ it)%float = false
  /\ (last_x_ it <? at_ x i)%float = false.
Proof.
  intros Hn Hc Hi.
  destruct (constructed_has_bounds x y it Hn Hc) as [[imin Hmin] [imax Hmax]].
  destruct (constructed_bounds x y it imin imax Hn Hc Hmin Hmax)
    as (Hfx & _ & Hlx & _).
  rewrite Hfx, Hlx. split; [apply (proj2 Hmin i Hi) | apply (proj2 Hmax i Hi)].
Qed.

(** X6: at a sample abscissa neither comparison fires, and the value
    returned is the one [gsl_spline_eval] computes there on the object's
    spline. *)
Lemma evaluate_at_sample (x y : vector double)
  (it : InterpolateDataSpline G) (i : nat) :
  no_nan x -> constructed_from x y it -> i < length x ->
  (at_ x i <? first_x_ it)%float = false
  /\ (last_x_ it <? at_ x i)%float = false
  /\ fst (evaluate it (at_ x i))
     = fst (gsl_spline_eval (spline_ it) (at_ x i) (acc_ it)).
Proof.
  intros Hn Hc Hi.
  destruct (sample_in_domain x y it i Hn Hc Hi) as [Hlo Hhi].
  repeat split; trivial. apply evaluate_in_domain; assumption.
Qed.

End Evaluation.

(** C1 on the sample object: below 1 the value is 10, above 3 it is 30,
    and at 1.5 it is the value of the spline evaluation. *)
Lemma evaluate_constant_extrapolation_witness :
  fst (evaluate sample_it 0.5%float) = 10%float
  /\ fst (evaluate sample_it 4%float) = 30%float
  /\ fst (evaluate sample_it 1.5%float)
     = fst (LinearGSL.eval sample_spline 1.5%float sample_acc).
Proof.
  destruct (@evaluate_constant_extrapolation LinearGSL.gsl
              sample_x sample_y sample_it sample_no_nan sample_constructed)
    as (_ & _ & _ & H).
  split; [ | split ].
  - apply (H 1 0 0.5%float sample_min sample_max). reflexivity.
  - apply (H 1 0 4%float sample_min sample_max). reflexivity.
  - apply (H 1 0 1.5%float sample_min sample_max); reflexivity.
Defined.

(** C9 on the sample object: at 1, at 3 and at NaN the value is the one of
    the spline evaluation. *)
Lemma evaluate_boundary_strict_witness :
  fst (evaluate sample_it 1%float)
  = fst (LinearGSL.eval sample_spline 1%float sample_acc)
  /\ fst (evaluate sample_it 3%float)
     = fst (LinearGSL.eval sample_spline 3%float sample_acc)
  /\ fst (evaluate sample_it nan)
     = fst (LinearGSL.eval sample_spline nan sample_acc).
Proof.
  destruct (@evaluate_boundary_strict LinearGSL.gsl
              sample_x sample_y sample_it sample_constructed) as [Hnan H].
  split; [ | split ].
  - apply (H sample_no_nan 1 0 1%float sample_min sample_max).
    left; reflexivity.
  - apply (H sample_no_nan 1 0 3%float sample_min sample_max).
    right; reflexivity.
  - apply Hnan. reflexivity.
Defined.

(** C7 on the sample object. *)
Lemma evaluate_deterministic_witness :
  fst (evaluate (evaluate_all sample_it [1.5; 7; 2]%float) 2.5%float)
  = fst (evaluate sample_it 2.5%float).
Proof.
  apply (@evaluate_deterministic LinearGSL.gsl sample_it).
  intros xi a a'. reflexivity.
Defined.

End EvaluationSpec.

(** ** The output buffers *)

Module RootOutputSpec.

Import RootOutput.

(** An array of the declared size exists: the record type is inhabited. *)
Lemma array_filled {T : Type} (v : T) :
  Z.of_nat (length (repeat v (Z.to_nat max_buffer_size_))) = max_buffer_size_.
Proof.
  rewrite repeat_length. apply Z2Nat.id. unfold max_buffer_size_. lia.
Qed.

Lemma Buffers_inhabited : inhabited Buffers.
Proof.
  pose (d := Build_array double max_buffer_size_ _ (array_filled 0%float)).
  pose (i := Build_array int max_buffer_size_ _ (array_filled 0%Z)).
  constructor.
  exact (Build_Buffers d d d d d d d d d d d i i i i i i i
           0%Z 0%Z 0%Z 0%Z 0%Z 0%float 0%float 0%float false).
Qed.

(** C8: every per-field buffer of a [RootOutput] object holds exactly
    [max_buffer_size_] = 10000 entries, the same for every field, and
    whatever is done to the object (any function from objects to objects)
    the capacity of a field stays what it was. *)
Theorem buffer_capacity_fixed (w : Buffers) (f : field) :
  max_buffer_size_ = 10000%Z
  /\ capacity w f = max_buffer_size_
  /\ (forall g : field, capacity w g = capacity w f)
  /\ (forall step : Buffers -> Buffers, capacity (step w) f = capacity w f).
Proof.
  assert (Hall : forall (b : Buffers) (g : field),
             capacity b g = max_buffer_size_)
    by (intros b g; destruct g; cbn [capacity]; apply elems_size).
  split; [reflexivity | ].
  split; [apply Hall | ].
  split; [intro g | intro step]; rewrite !Hall; reflexivity.
Qed.

End RootOutputSpec.

(** ** Further facts: pairwise comparison and sorted pairs *)

Module PairwiseFacts.

Import DoubleOrderFacts Interpolation InterpolationFacts.

Lemma eqb_sym (a b : float) : (a =? b)%float = (b =? a)%float.
Proof.
  destruct (a =? b)%float eqn:E1, (b =? a)%float eqn:E2; trivial.
  - destruct (eqb_not_nan _ _ E1) as [Ha Hb].
    apply (eqb_key a b Ha Hb) in E1. symmetry in E1.
    apply (eqb_key b a Hb Ha) in E1. congruence.
  - destruct (eqb_not_nan _ _ E2) as [Hb Ha].
    apply (eqb_key b a Hb Ha) in E2. symmetry in E2.
    apply (eqb_key a b Ha Hb) in E2. congruence.
Qed.

Lemma ltb_not_eqb (a b : float) :
  (a <? b)%float = true ->
  (a =? b)%float = false /\ (b =? a)%float = false.
Proof.
  intro H. rewrite (eqb_sym b a).
  destruct (a =? b)%float eqn:E; [ | split; reflexivity ].
  rewrite (proj1 (eqb_not_ltb _ _ E)) in H. discriminate.
Qed.

Lemma sorted_pairwise {A : Type} (R : A -> A -> Prop) (l : list A)
  (a b : A) :
  StronglySorted R l -> In a l -> In b l -> a <> b -> R a b \/ R b a.
Proof.
  induction 1 as [|c l Hs IH Hc]; intros Ha Hb Hne; [contradiction | ].
  rewrite Forall_forall in Hc.
  destruct Ha as [-> | Ha], Hb as [-> | Hb].
  - congruence.
  - left. apply Hc, Hb.
  - right. apply Hc, Ha.
  - apply IH; assumption.
Qed.

Lemma strictly_ascending_adjacent (l : vector double) :
  strictly_ascending l -> adjacent_equal l = false.
Proof.
  unfold strictly_ascending.
  induction 1 as [|a t Hs IH Ha]; [reflexivity | ].
  destruct t as [|b t']; [reflexivity | ].
  change (adjacent_equal (a :: b :: t'))
    with ((a =? b)%float || adjacent_equal (b :: t')).
  rewrite IH, orb_false_r.
  inversion Ha as [|? ? Hab _]; subst.
  exact (proj1 (ltb_not_eqb _ _ Hab)).
Qed.

Lemma adjacent_distinct_indices (x : vector double) (p : list nat) :
  NoDup p ->
  (forall i j, In i p -> In j p -> i <> j ->
     (at_ x i =? at_ x j)%float = false) ->
  adjacent_equal (map (at_ x) p) = false.
Proof.
  induction 1 as [|i p Hi Hnd IH]; intro Hd; [reflexivity | ].
  destruct p as [|j q]; [reflexivity | ].
  change (adjacent_equal (map (at_ x) (i :: j :: q)))
    with ((at_ x i =? at_ x j)%float || adjacent_equal (map (at_ x) (j :: q))).
  apply orb_false_iff. split.
  - apply Hd; [left; reflexivity | right; left; reflexivity | ].
    intros ->. apply Hi. left; reflexivity.
  - apply IH. intros a b Ha Hb. apply Hd; right; assumption.
Qed.

Lemma generate_sort_permutation_NoDup (x : vector double)
  (c : double -> double -> bool) :
  NoDup (generate_sort_permutation x c).
Proof.
  apply (Permutation_NoDup
           (Permutation_sym (generate_sort_permutation_perm x c))).
  apply seq_NoDup.
Qed.

(** *** Lists of pairs ordered by their first component *)

Lemma sorted_pairs_unique (l l' : list (double * double)) :
  StronglySorted key_below l -> StronglySorted key_not_above l' ->
  Permutation l l' -> l = l'.
Proof.
  intro Hs. revert l'.
  induction Hs as [|a t Hs IH Ha]; intros l' Hs' Hp.
  - apply Permutation_nil in Hp. congruence.
  - destruct l' as [|a' t'];
      [apply Permutation_sym, Permutation_nil in Hp; discriminate | ].
    inversion Hs' as [|? ? Hs't Ha']; subst.
    rewrite Forall_forall in Ha, Ha'.
    assert (Heq : a = a').
    { assert (Hin : In a (a' :: t'))
        by (apply (Permutation_in _ Hp); left; reflexivity).
      assert (Hin' : In a' (a :: t))
        by (apply (Permutation_in _ (Permutation_sym Hp)); left; reflexivity).
      destruct Hin as [E | Hin]; [symmetry; exact E | ].
      destruct Hin' as [E | Hin']; [exact E | exfalso ].
      specialize (Ha a' Hin'). specialize (Ha' a Hin).
      unfold key_below, key_not_above in *. congruence. }
    subst a'. f_equal. apply IH; [exact Hs't | ].
    apply Permutation_cons_inv with a. exact Hp.
Qed.

Lemma map_fst_combine (x y : vector double) :
  length y = length x -> map fst (combine x y) = x.
Proof.
  revert y. induction x as [|a x IH]; intros [|b y] Hlen;
    try discriminate; [reflexivity | ].
  cbn [combine map fst]. f_equal. apply IH.
  cbn [length] in Hlen. lia.
Qed.

Lemma in_at (x : vector double) (a : double) :
  In a x -> exists i, i < length x /\ at_ x i = a.
Proof.
  intro H. destruct (In_nth x a 0%float H) as (i & Hi & E).
  exists i. split; assumption.
Qed.

Lemma at_in (x : vector double) (i : nat) :
  i < length x -> In (at_ x i) x.
Proof. intro H. apply nth_In, H. Qed.

Lemma sorted_pairs_map (x y : vector double) (p : list nat)
  (R : double -> double -> Prop) :
  StronglySorted (fun i j => R (at_ x i) (at_ x j)) p ->
  StronglySorted (fun a b : double * double => R (fst a) (fst b))
    (map (fun i => (at_ x i, at_ y i)) p).
Proof.
  induction 1 as [|i p Hs IH Hi]; cbn [map]; constructor; [exact IH | ].
  rewrite Forall_forall in *. intros b Hb.
  apply in_map_iff in Hb. destruct Hb as (j & <- & Hj). apply Hi, Hj.
Qed.

End PairwiseFacts.

(** ** Further properties of the constructor and of evaluation *)

Module InterpolatorProperties.

Import DoubleOrderFacts Interpolation InterpolationFacts PairwiseFacts.

Lemma sorted_weaken {A : Type} (R R' : A -> A -> Prop) (l : list A) :
  (forall a b, R a b -> R' a b) -> StronglySorted R l -> StronglySorted R' l.
Proof.
  intro Himp. induction 1 as [|a l Hs IH Ha]; constructor; [exact IH | ].
  rewrite Forall_forall in *. intros b Hb. apply Himp, Ha, Hb.
Qed.

Lemma pairs_of_permutation (x y : vector double) (p : list nat) :
  apply_permutation x p = map fst (map (fun i => (at_ x i, at_ y i)) p)
  /\ apply_permutation y p = map snd (map (fun i => (at_ x i, at_ y i)) p).
Proof.
  unfold apply_permutation. rewrite !map_map. split; reflexivity.
Qed.

Lemma sorted_pairs_permutation (x y : vector double) :
  length y = length x ->
  Permutation
    (map (fun i => (at_ x i, at_ y i)) (generate_sort_permutation x less))
    (combine x y).
Proof.
  intro Hlen. rewrite <- (EvaluationSpec.combine_at x y Hlen).
  apply Permutation_map, generate_sort_permutation_perm.
Qed.

Section Properties.

Context {G : GSL}.

Lemma construct_success (x y : vector double) (h : heap) :
  length y = length x -> 3 <= length x ->
  adjacent_equal
    (apply_permutation x (generate_sort_permutation x less)) = false ->
  exists it, construct x y h = (inr it, S (S h)).
Proof.
  intros H1 H2 H3. rewrite construct_eq.
  destruct (Nat.eqb_spec (length y) (length x)); [ | contradiction ].
  destruct (Nat.ltb_spec (length x) 3); [lia | ].
  cbv zeta. apply first_duplicate_none in H3. rewrite H3.
  eexists. reflexivity.
Qed.

(** X1: construction succeeds exactly when the lengths agree, there are at
    least 3 points and no two neighbours of the sorted abscissae compare
    equal; it then has allocated exactly two GSL objects, and the object
    starts with a fresh accelerator. *)
Theorem construct_succeeds_iff (x y : vector double) (h : heap) :
  ((exists it h', construct x y h = (inr it, h'))
   <-> (length y = length x /\ 3 <= length x
        /\ adjacent_equal
             (apply_permutation x (generate_sort_permutation x less))
           = false))
  /\ (forall it h', construct x y h = (inr it, h') ->
        h' = S (S h) /\ acc_ it = gsl_interp_accel_alloc).
Proof.
  split; [split | ].
  - intros (it & h' & E).
    destruct (constructed_inv x y it (cf_new x y h it h' E))
      as (H1 & H2 & H3 & _).
    repeat split; assumption.
  - intros (H1 & H2 & H3).
    destruct (construct_success x y h H1 H2 H3) as [it E].
    exists it, (S (S h)). exact E.
  - intros it h' E. rewrite construct_eq in E.
    destruct (negb (length y =? length x)); [discriminate | ].
    destruct (length x <? 3); [discriminate | ].
    cbv zeta in E. destruct (first_duplicate _); [discriminate | ].
    injection E as <- <-. split; reflexivity.
Qed.

(** X3: the checks look at the ordinates' number only: with another [y] of the
    same length construction throws the same error, or succeeds with the
    same bounds and the same heap. *)
Theorem construct_checks_ignore_y (x y y' : vector double) (h : heap) :
  length y' = length y ->
  (forall e, construct x y h = (inl e, h) <-> construct x y' h = (inl e, h))
  /\ (forall it h1, construct x y h = (inr it, h1) ->
        exists it', construct x y' h = (inr it', h1)
                    /\ first_x_ it' = first_x_ it
                    /\ last_x_ it' = last_x_ it).
Proof.
  intro Hlen. rewrite !construct_eq, Hlen.
  destruct (negb (length y =? length x));
    [split; [intro e; reflexivity | intros it h1 E; discriminate] | ].
  destruct (length x <? 3);
    [split; [intro e; reflexivity | intros it h1 E; discriminate] | ].
  cbv zeta. destruct (first_duplicate _);
    [split; [intro e; reflexivity | intros it h1 E; discriminate] | ].
  split; [intro e; split; discriminate | ].
  intros it h1 E. injection E as <- <-.
  eexists. split; [reflexivity | split; reflexivity].
Qed.

(** X4: for abscissae without NaN, construction succeeds exactly when the
    lengths agree, there are at least 3 points and the abscissae are
    pairwise different under [==], wherever they stand in the input. *)
Theorem construct_succeeds_iff_distinct (x y : vector double) (h : heap) :
  no_nan x ->
  ((exists it h', construct x y h = (inr it, h'))
   <-> (length y = length x /\ 3 <= length x
        /\ forall i j, i < j -> j < length x ->
             (at_ x i =? at_ x j)%float = false)).
Proof.
  intro Hn. split.
  - intros (it & h' & E).
    pose proof (cf_new x y h it h' E) as Hc.
    destruct (constructed_inv x y it Hc) as (H1 & H2 & _).
    pose proof (constructed_strict x y it Hn Hc) as Hs.
    repeat split; trivial. intros i j Hij Hj.
    destruct (sorted_pairwise _ _ i j Hs) as [H | H].
    + apply generate_sort_permutation_in. lia.
    + apply generate_sort_permutation_in. exact Hj.
    + lia.
    + exact (proj1 (ltb_not_eqb _ _ H)).
    + exact (proj2 (ltb_not_eqb _ _ H)).
  - intros (H1 & H2 & Hd).
    destruct (construct_success x y h H1 H2) as [it E]; [ | eauto ].
    apply adjacent_distinct_indices;
      [apply generate_sort_permutation_NoDup | ].
    intros i j Hi Hj Hne.
    apply generate_sort_permutation_in in Hi, Hj.
    destruct (Nat.lt_trichotomy i j) as [Hlt | [Heq | Hgt]];
      [apply Hd; assumption | contradiction | ].
    rewrite eqb_sym. apply Hd; assumption.
Qed.

(** X5: the stored domain is never degenerate: for an object built from
    abscissae without NaN, the lower bound is strictly below the upper
    one, also after any calls of [evaluate]. *)
Theorem constructed_bounds_ordered (x y : vector double)
  (it : InterpolateDataSpline G) :
  no_nan x -> constructed_from x y it ->
  (first_x_ it <? last_x_ it)%float = true.
Proof.
  intros Hn Hc.
  pose proof (constructed_strict x y it Hn Hc) as Hs.
  destruct (constructed_inv x y it Hc) as (_ & H3 & _ & Hsam).
  pose proof (generate_sort_permutation_length x less) as Hp.
  unfold samples in Hsam. inversion Hsam as [[Hfx Hlx Hfy Hly Hsp]].
  destruct (generate_sort_permutation x less) as [|i0 [|i1 q]];
    cbn [length] in Hp; try lia.
  inversion Hs as [|? ? _ Hall]; subst.
  rewrite Forall_forall in Hall. rewrite Hfx, Hlx. cbn [hd].
  apply Hall.
  change (last (i0 :: i1 :: q) 0) with (last (i1 :: q) 0).
  apply last_in. discriminate.
Qed.

(** X7: the order in which the samples are given does not matter: for
    abscissae without NaN, if construction from the pairs succeeds, then
    construction from the same pairs in any other order succeeds with the
    very same object. *)
Theorem construct_order_independent (x y x' y' : vector double) (h h' : heap)
  (it : InterpolateDataSpline G) :
  no_nan x -> length y = length x -> length y' = length x' ->
  Permutation (combine x y) (combine x' y') ->
  construct x y h = (inr it, h') ->
  construct x' y' h = (inr it, h').
Proof.
  intros Hn Hlen Hlen' Hperm E.
  pose proof (cf_new x y h it h' E) as Hc.
  pose proof (constructed_strict x y it Hn Hc) as Hs.
  assert (Hlx : length x' = length x).
  { pose proof (Permutation_length Hperm) as L.
    rewrite !length_combine, Hlen, Hlen', !Nat.min_id in L. lia. }
  assert (Hn' : no_nan x').
  { intros i Hi0.
    assert (Hi : In (at_ x' i) (map fst (combine x' y')))
      by (rewrite (map_fst_combine x' y' Hlen'); apply at_in, Hi0).
    apply (Permutation_in _ (Permutation_map fst (Permutation_sym Hperm)))
      in Hi.
    rewrite (map_fst_combine x y Hlen) in Hi.
    destruct (in_at x _ Hi) as (j & Hj & <-). apply Hn, Hj. }
  assert (Hpairs :
            map (fun i => (at_ x i, at_ y i))
              (generate_sort_permutation x less)
            = map (fun i => (at_ x' i, at_ y' i))
                (generate_sort_permutation x' less)).
  { apply sorted_pairs_unique.
    - apply (sorted_pairs_map x y _ (fun a b => (a <? b)%float = true)), Hs.
    - apply (sorted_pairs_map x' y' _ (fun a b => (b <? a)%float = false)).
      apply sorted_weaken with (R := stable_before x');
        [apply stable_before_not_above | ].
      apply generate_sort_permutation_stable, Hn'.
    - apply perm_trans with (combine x y);
        [apply sorted_pairs_permutation, Hlen | ].
      apply perm_trans with (combine x' y'); [exact Hperm | ].
      apply Permutation_sym, sorted_pairs_permutation, Hlen'. }
  assert (Hsx : apply_permutation x' (generate_sort_permutation x' less)
                = apply_permutation x (generate_sort_permutation x less)).
  { rewrite (proj1 (pairs_of_permutation x' y' _)),
            (proj1 (pairs_of_permutation x y _)), Hpairs. reflexivity. }
  assert (Hsy : apply_permutation y' (generate_sort_permutation x' less)
                = apply_permutation y (generate_sort_permutation x less)).
  { rewrite (proj2 (pairs_of_permutation x' y' _)),
            (proj2 (pairs_of_permutation x y _)), Hpairs. reflexivity. }
  rewrite construct_eq in E |- *. cbv zeta in E |- *.
  rewrite Hsx, Hsy, Hlen', Hlx. rewrite Hlen in E. exact E.
Qed.

End Properties.

(** X8: the duplicate check alone: on a non-empty ascending vector without
    NaN (on the empty one the source's bound [size() - 1] wraps around),
    the loop of lines 21-31 lets it pass exactly when it is strictly
    ascending. *)
Theorem unique_loop_accepts_iff_strict (v : vector double) (h : heap) :
  0 < length v ->
  (forall a, In a v -> PrimFloat.is_nan a = false) -> ascending v ->
  (unique_loop v 0 (length v - 1) h = (inr tt, h) <-> strictly_ascending v).
Proof.
  intros _ Hn Ha. rewrite unique_loop_first_duplicate. split.
  - destruct (first_duplicate v) eqn:E; [discriminate | intros _ ].
    apply ascending_strict; trivial. apply first_duplicate_none, E.
  - intro Hs. apply strictly_ascending_adjacent, first_duplicate_none in Hs.
    rewrite Hs. reflexivity.
Qed.

(** X9: the loop stays inside the vector: on every non-empty vector (of a size
    a [size_t] can hold) the loop with checked reads and the wrapping bound
    [size() - 1] ends within [size()] iterations without reading out of
    range, with the result of [unique_loop]; on the empty vector the bound
    wraps around and the first read is out of range, which the
    constructor's test [N < 3] rules out. *)
Theorem unique_loop_in_bounds (v : vector double) (h : heap) :
  (0 < length v -> (Z.of_nat (length v) < size_t_modulus)%Z ->
   unique_loop_checked v 0 (length v)
   = Finished (fst (unique_loop v 0 (length v - 1) h)))
  /\ (forall fuel, unique_loop_checked [] 0 (S fuel) = OutOfRange 0).
Proof.
  split; [ | intro fuel; reflexivity ].
  intros Hpos Hsize.
  assert (Hbound : size_t_sub (Z.of_nat (length v)) 1
                   = (Z.of_nat (length v) - 1)%Z).
  { unfold size_t_sub. apply Z.mod_small. lia. }
  assert (Hgen : forall fuel i,
             i + fuel = length v -> i < length v ->
             unique_loop_checked v i fuel
             = Finished (fst (unique_loop v i (length v - 1 - i) h))).
  { induction fuel as [|k IH]; intros i Hsum Hi; [lia | ].
    cbn [unique_loop_checked]. rewrite Hbound.
    destruct (Z.ltb_spec (Z.of_nat i) (Z.of_nat (length v) - 1)) as [Hlt | Hge].
    - rewrite (nth_error_nth' v 0%float) by lia.
      rewrite (nth_error_nth' v 0%float) by lia.
      replace (length v - 1 - i) with (S (length v - 1 - S i)) by lia.
      cbn [unique_loop]. fold (at_ v i). fold (at_ v (i + 1)).
      destruct (at_ v i =? at_ v (i + 1))%float; [reflexivity | ].
      apply IH; lia.
    - replace (length v - 1 - i) with 0 by lia. reflexivity. }
  rewrite (Hgen (length v) 0) by lia.
  rewrite Nat.sub_0_r. reflexivity.
Qed.

Section ErrorsAndArguments.

Context {G : GSL}.

(** X10: the value the duplicate error names is an input abscissa that compares
    equal to the abscissa at another index of the input. *)
Theorem duplicate_error_names_repeated_input (x y : vector double)
  (h h' : heap) (d : double) :
  construct x y h = (inl (DuplicateAbscissa d), h') ->
  exists i j, i < length x /\ j < length x /\ i <> j
              /\ at_ x i = d /\ (at_ x i =? at_ x j)%float = true.
Proof.
  intro E. rewrite construct_eq in E.
  destruct (negb (length y =? length x)); [discriminate | ].
  destruct (length x <? 3); [discriminate | ].
  cbv zeta in E.
  set (p := generate_sort_permutation x less) in *.
  destruct (first_duplicate (apply_permutation x p)) as [d' | ] eqn:Hd;
    [ | discriminate ].
  injection E as -> _.
  destruct (ConstructorSpec.first_duplicate_index _ _ Hd)
    as (k & Hk & Hdk & Hek & _).
  unfold apply_permutation in Hk, Hdk, Hek. rewrite length_map in Hk.
  rewrite !at_map in * by lia.
  exists (nth k p 0), (nth (k + 1) p 0).
  assert (Hin : forall m, m < length p -> nth m p 0 < length x).
  { intros m Hm. apply (generate_sort_permutation_in x less).
    apply nth_In, Hm. }
  repeat split; trivial; try (apply Hin; lia).
  intro Heq.
  pose proof (generate_sort_permutation_NoDup x less) as Hnd.
  fold p in Hnd.
  apply (proj1 (NoDup_nth p 0) Hnd) in Heq; lia.
Qed.

(** X11: what is handed to [gsl_spline_init] meets the library's demands: for
    abscissae without NaN, the spline of a constructed object was
    initialised with strictly ascending abscissae, as many ordinates, and
    the size N >= 3 that was allocated. *)
Theorem spline_init_arguments_valid (x y : vector double)
  (it : InterpolateDataSpline G) :
  no_nan x -> constructed_from x y it ->
  exists sorted_x sorted_y,
    spline_ it =
    gsl_spline_init (gsl_spline_alloc gsl_interp_cspline (length x))
      sorted_x sorted_y (length x)
    /\ length sorted_x = length x /\ length sorted_y = length x
    /\ 3 <= length x /\ strictly_ascending sorted_x.
Proof.
  intros Hn Hc.
  destruct (constructed_inv x y it Hc) as (_ & H3 & Hadj & Hsam).
  unfold samples in Hsam. inversion Hsam as [[Hfx Hlx Hfy Hly Hsp]].
  eexists. eexists. split; [exact Hsp | ].
  unfold apply_permutation.
  rewrite !length_map, generate_sort_permutation_length.
  repeat split; trivial.
  apply ascending_strict; trivial.
  - intros a Ha. apply in_map_iff in Ha. destruct Ha as [i [<- Hi]].
    apply Hn. apply generate_sort_permutation_in in Hi. exact Hi.
  - apply stable_sorted_ascending, generate_sort_permutation_stable, Hn.
Qed.

End ErrorsAndArguments.

(** *** Instances on concrete data *)

Lemma sample_pairs_permuted :
  Permutation (combine sample_x sample_y)
    (combine [1; 2; 3]%float [10; 20; 30]%float).
Proof.
  exact (Permutation_cons_append
           [(1, 10); (2, 20)]%float (3, 30)%float).
Qed.

Lemma sample_sorted_no_nan :
  forall a, In a [1; 2; 3]%float -> PrimFloat.is_nan a = false.
Proof.
  intros a [<- | [<- | [<- | []]]]; reflexivity.
Qed.

Lemma sample_sorted_ascending : ascending [1; 2; 3]%float.
Proof.
  unfold ascending. repeat constructor.
Qed.

Lemma construct_checks_ignore_y_witness :
  exists it', construct (G := LinearGSL.gsl) sample_x [nan; 0; infinity]%float 0
              = (inr it', 2)
              /\ first_x_ it' = first_x_ sample_it
              /\ last_x_ it' = last_x_ sample_it.
Proof.
  destruct (@construct_checks_ignore_y LinearGSL.gsl sample_x sample_y
              [nan; 0; infinity]%float 0 eq_refl) as [_ H].
  apply (H sample_it 2). reflexivity.
Defined.

Lemma construct_succeeds_iff_distinct_witness :
  exists it h', construct (G := LinearGSL.gsl) sample_x sample_y 0
                = (inr it, h').
Proof.
  apply (proj2 (@construct_succeeds_iff_distinct LinearGSL.gsl
                  sample_x sample_y 0 EvaluationSpec.sample_no_nan)).
  split; [reflexivity | ]. split; [cbn; lia | ].
  intros [|[|[|i]]] [|[|[|j]]] Hij Hj; try reflexivity;
    cbn [sample_x length] in Hj; lia.
Defined.

Lemma constructed_bounds_ordered_witness :
  (first_x_ sample_it <? last_x_ sample_it)%float = true.
Proof.
  apply (@constructed_bounds_ordered LinearGSL.gsl sample_x sample_y
           sample_it EvaluationSpec.sample_no_nan
           EvaluationSpec.sample_constructed).
Defined.

Lemma construct_order_independent_witness :
  construct (G := LinearGSL.gsl) [1; 2; 3]%float [10; 20; 30]%float 0
  = (inr sample_it, 2).
Proof.
  apply (@construct_order_independent LinearGSL.gsl sample_x sample_y
           [1; 2; 3]%float [10; 20; 30]%float 0 2 sample_it
           EvaluationSpec.sample_no_nan eq_refl eq_refl
           sample_pairs_permuted).
  reflexivity.
Defined.

Lemma unique_loop_accepts_iff_strict_witness :
  unique_loop [1; 2; 3]%float 0 2 0 = (inr tt, 0)
  <-> strictly_ascending [1; 2; 3]%float.
Proof.
  apply (unique_loop_accepts_iff_strict [1; 2; 3]%float 0);
    [cbn [length]; lia | exact sample_sorted_no_nan
     | exact sample_sorted_ascending].
Defined.

Lemma evaluate_at_sample_witness :
  (2 <? first_x_ sample_it)%float = false
  /\ (last_x_ sample_it <? 2)%float = false
  /\ fst (evaluate sample_it 2%float)
     = fst (LinearGSL.eval sample_spline 2%float sample_acc).
Proof.
  apply (@EvaluationSpec.evaluate_at_sample LinearGSL.gsl sample_x sample_y
           sample_it 2 EvaluationSpec.sample_no_nan
           EvaluationSpec.sample_constructed).
  cbn. lia.
Defined.

Lemma duplicate_error_names_repeated_input_witness :
  exists i j, i < 3 /\ j < 3 /\ i <> j
              /\ at_ [1; 1; 2]%float i = 1%float
              /\ (at_ [1; 1; 2]%float i =? at_ [1; 1; 2]%float j)%float
                 = true.
Proof.
  apply (@duplicate_error_names_repeated_input LinearGSL.gsl
           [1; 1; 2]%float [1; 2; 3]%float 0 0 1%float).
  reflexivity.
Defined.

Lemma spline_init_arguments_valid_witness :
  exists sorted_x sorted_y,
    spline_ sample_it =
    gsl_spline_init (gsl_spline_alloc gsl_interp_cspline 3)
      sorted_x sorted_y 3
    /\ length sorted_x = 3 /\ length sorted_y = 3
    /\ 3 <= 3 /\ strictly_ascending sorted_x.
Proof.
  apply (@spline_init_arguments_valid LinearGSL.gsl sample_x sample_y
           sample_it EvaluationSpec.sample_no_nan
           EvaluationSpec.sample_constructed).
Defined.

End InterpolatorProperties.

(** ** The sorted samples and the values at the samples *)

Module SortedSamplesSpec.

Import DoubleOrderFacts Interpolation InterpolationFacts PairwiseFacts.
Import InterpolatorProperties.

Section SortedSamples.

Context {G : GSL}.

(** Valid input yields an object. *)
Lemma distinct_input_constructs (x y : vector double) (h : heap) :
  length y = length x -> 3 <= length x ->
  (forall i j, i < j -> j < length x ->
     (at_ x i =? at_ x j)%float = false) ->
  exists it, construct x y h = (inr it, S (S h)).
Proof.
  intros H1 H2 Hd. apply construct_success; trivial.
  apply adjacent_distinct_indices; [apply generate_sort_permutation_NoDup | ].
  intros i j Hi Hj Hne.
  apply generate_sort_permutation_in in Hi, Hj.
  destruct (Nat.lt_trichotomy i j) as [Hlt | [Heq | Hgt]];
    [apply Hd; assumption | contradiction | ].
  rewrite eqb_sym. apply Hd; assumption.
Qed.

(** C6: the indices are stable-sorted by abscissa (a permutation of
    [0 .. N-1], ascending, equal abscissae in input order), and both
    sequences are read through that one permutation, so the sorted pairs
    are the input pairs rearranged; valid input (at least 3 points,
    abscissae pairwise different) does yield an object; the spline of a
    constructed object is initialised with these sorted sequences, and its
    bounds are the smallest and the largest input abscissa, each with the
    ordinate it was given with. *)
Theorem construct_sorts_pairs_together (x y : vector double) :
  no_nan x -> length y = length x ->
  let p := generate_sort_permutation x less in
  Permutation p (seq 0 (length x))
  /\ StronglySorted (stable_before x) p
  /\ ascending (apply_permutation x p)
  /\ Permutation (combine (apply_permutation x p) (apply_permutation y p))
       (combine x y)
  /\ (3 <= length x ->
      (forall i j, i < j -> j < length x ->
         (at_ x i =? at_ x j)%float = false) ->
      forall h, exists it, construct x y h = (inr it, S (S h)))
  /\ forall it, constructed_from x y it ->
       spline_ it =
       gsl_spline_init (gsl_spline_alloc gsl_interp_cspline (length x))
         (apply_permutation x p) (apply_permutation y p) (length x)
       /\ forall imin imax, is_min x imin -> is_max x imax ->
            first_x_ it = at_ x imin /\ first_y_ it = at_ y imin
            /\ last_x_ it = at_ x imax /\ last_y_ it = at_ y imax.
Proof.
  intros Hn Hlen p. subst p.
  split; [apply generate_sort_permutation_perm | ].
  split; [apply generate_sort_permutation_stable, Hn | ].
  split; [apply stable_sorted_ascending,
            generate_sort_permutation_stable, Hn | ].
  split.
  - rewrite EvaluationSpec.combine_apply_permutation,
      <- (EvaluationSpec.combine_at x y Hlen).
    apply Permutation_map, generate_sort_permutation_perm.
  - split.
    + intros H3 Hd h. apply distinct_input_constructs; assumption.
    + intros it Hc. split.
      * destruct (constructed_inv x y it Hc) as (_ & _ & _ & Hsam).
        unfold samples in Hsam. inversion Hsam. reflexivity.
      * intros imin imax. apply constructed_bounds; assumption.
Qed.

(** C3: for valid input (equal lengths, at least 3 points, abscissae
    without NaN and pairwise different), construction yields an object,
    and every object built from it returns at every sample abscissa [x_i]
    a value within tolerance of [y_i]; the tolerance is the relation
    [close], and the only thing taken from the library is that its cubic
    spline, initialised with the sorted samples, passes through its own
    nodes up to [close]. *)
Theorem evaluate_passes_through_samples (close : double -> double -> Prop)
  (x y : vector double) (h : heap) :
  no_nan x -> length y = length x -> 3 <= length x ->
  (forall i j, i < j -> j < length x ->
     (at_ x i =? at_ x j)%float = false) ->
  passes_through_nodes close
    (apply_permutation x (generate_sort_permutation x less))
    (apply_permutation y (generate_sort_permutation x less)) (length x) ->
  (exists it, construct x y h = (inr it, S (S h)))
  /\ forall it, constructed_from x y it ->
       forall i, i < length x ->
         close (fst (evaluate it (at_ x i))) (at_ y i).
Proof.
  intros Hn Hlen H3 Hd Hgsl.
  split; [apply distinct_input_constructs; assumption | ].
  intros it Hc i Hi.
  destruct (EvaluationSpec.sample_in_domain x y it i Hn Hc Hi) as [Hlo Hhi].
  rewrite (proj1 (evaluate_in_domain it (at_ x i) Hlo Hhi)).
  destruct (constructed_inv x y it Hc) as (_ & _ & _ & Hsam).
  unfold samples in Hsam. inversion Hsam as [[Hfx Hlx Hfy Hly Hsp]].
  rewrite Hsp.
  pose proof (generate_sort_permutation_length x less) as Hp.
  assert (Hin : In i (generate_sort_permutation x less))
    by (apply generate_sort_permutation_in, Hi).
  destruct (In_nth _ _ 0 Hin) as (k & Hk & Hnth).
  rewrite Hp in Hk.
  specialize (Hgsl k (acc_ it) Hk).
  unfold apply_permutation in Hgsl at 3 4.
  rewrite !at_map, Hnth in Hgsl by lia.
  exact Hgsl.
Qed.

End SortedSamples.

Lemma sample_distinct :
  forall i j, i < j -> j < length sample_x ->
    (at_ sample_x i =? at_ sample_x j)%float = false.
Proof.
  intros [|[|[|i]]] [|[|[|j]]] Hij Hj; try reflexivity;
    cbn [sample_x length] in Hj; lia.
Qed.

Lemma sample_passes_through_nodes :
  passes_through_nodes (G := LinearGSL.gsl) within_tolerance
    (apply_permutation sample_x (generate_sort_permutation sample_x less))
    (apply_permutation sample_y (generate_sort_permutation sample_x less))
    (length sample_x).
Proof.
  intros [|[|[|k]]] a Hk; try (vm_compute; reflexivity).
  cbn [sample_x length] in Hk. lia.
Qed.

(** C6 on the sample data: an object is built, and its lower boundary
    ordinate is the one given with the smallest abscissa (index 1). *)
Lemma construct_sorts_pairs_together_witness :
  Permutation (generate_sort_permutation sample_x less) (seq 0 3)
  /\ exists it,
       construct (G := LinearGSL.gsl) sample_x sample_y 0 = (inr it, 2)
       /\ first_x_ it = at_ sample_x 1 /\ first_y_ it = at_ sample_y 1
       /\ last_x_ it = at_ sample_x 0 /\ last_y_ it = at_ sample_y 0.
Proof.
  destruct (@construct_sorts_pairs_together LinearGSL.gsl
              sample_x sample_y EvaluationSpec.sample_no_nan eq_refl)
    as (Hperm & _ & _ & _ & Hok & H).
  split; [exact Hperm | ].
  destruct (Hok (le_n 3) sample_distinct 0) as [it E].
  exists it. split; [exact E | ].
  destruct (H it (cf_new sample_x sample_y 0 it 2 E)) as [_ Hb].
  apply (Hb 1 0 EvaluationSpec.sample_min EvaluationSpec.sample_max).
Defined.

(** C3 on the sample data: an object is built, and at the sample abscissa
    2 it returns a value within 2^-30 of the sample ordinate 20. *)
Lemma evaluate_passes_through_samples_witness :
  (exists it, construct (G := LinearGSL.gsl) sample_x sample_y 0
              = (inr it, 2))
  /\ within_tolerance (fst (evaluate sample_it 2%float)) 20%float.
Proof.
  destruct (@evaluate_passes_through_samples LinearGSL.gsl within_tolerance
              sample_x sample_y 0 EvaluationSpec.sample_no_nan eq_refl
              (le_n 3) sample_distinct sample_passes_through_nodes)
    as [Hok H].
  split; [exact Hok | ].
  apply (H sample_it EvaluationSpec.sample_constructed 2).
  cbn [sample_x length]. lia.
Defined.

End SortedSamplesSpec.
